(** * EyeOnProps: the dual-mode change-detection engine

    A shallow embedding of the [EyeOnProps] class and the properties of
    its registry, its two detectors and its payload builders.  The class is
    embedded in its version 2.1.0, which holds the watched objects through
    [WeakRef] and cleans up through a [FinalizationRegistry]; the functions
    of version 2.0.0 that differ are embedded in module [V2_0] and related
    to the former at the end.

    Modelling decisions, all taken from the source:
    - JavaScript objects live in a heap indexed by object identity; an
      object that has been reclaimed by the collector is absent from the
      heap, so [WeakRef.deref] is a heap lookup.  An object is the finite
      map of the properties [in] can see.  Objects are extensible and
      every property is writable; a property is configurable unless the
      object says otherwise ([Sealed]), and [Object.defineProperty] throws
      its [TypeError] on a property that is not.  The only accessor
      properties are the ones [realTime()] installs;
    - a [WatchedEntry] is itself a mutable object, shared between the
      array [this.entries] and the setter closures installed by
      [realTime()]: entry objects live in a store ([cells]) and the array
      holds references into it;
    - a payload ([Record<string, any>]) is the finite map of its own
      enumerable properties, and [Object.keys(payload).length > 0] says
      that it is not empty.  A record built by an object literal with
      computed keys has every key it is given; a record filled by
      assignment ([record[k] = v], see [assign_key]) never gets the key
      [__proto__], which [Object.prototype] intercepts;
    - what the engine sends out is appended to one trace: the
      notifications it publishes ([emit]), the warning it sends to the
      process, and its calls of [setInterval] and [clearInterval].
      Listeners are the notification channel's business and are not run
      here;
    - [throw new Error(...)] aborts the call with the state reached so far;
    - [intervalId] holds the handle of the timer armed last, a handle
      being represented by the argument the timer was armed with; a firing
      of that timer is the action [Tick]. *)

From stdpp Require Import gmap strings list fin_maps.

(** ** Values and strict equality *)

Definition oid := nat.

(** JavaScript values as far as the engine can tell them apart: it stores
    them and compares them with [!==], nothing else.  Numbers other than
    NaN are represented by integers. *)
Inductive any :=
  | VUndefined
  | VNull
  | VBool (b : bool)
  | VNum (n : Z)
  | VNaN
  | VStr (s : string)
  | VObj (o : oid).

Global Instance any_eq_dec : EqDecision any.
Proof. solve_decision. Defined.

(** [a === b]: NaN is equal to nothing, itself included. *)
Definition strict_eq (a b : any) : bool :=
  match a, b with
  | VNaN, _ => false
  | _, VNaN => false
  | _, _ => bool_decide (a = b)
  end.

(** [a !== b] *)
Definition strict_neq (a b : any) : bool := negb (strict_eq a b).

(** ** Entries, modes, notifications *)

Record WatchedEntry := mkEntry {
  instanceRef : oid;
  prop : string;
  key : string;
  lastValue : any;
}.

Global Instance WatchedEntry_eq_dec : EqDecision WatchedEntry.
Proof. solve_decision. Defined.

Definition set_lastValue (v : any) (e : WatchedEntry) : WatchedEntry :=
  mkEntry (instanceRef e) (prop e) (key e) v.

Inductive EyeOnPropsMode := ModeAll | ModeChanged | ModeUndefined.
Inductive EyeOnPropsType := TypeClock | TypeRealTime | TypeUndefined.

Global Instance EyeOnPropsMode_eq_dec : EqDecision EyeOnPropsMode.
Proof. solve_decision. Defined.
Global Instance EyeOnPropsType_eq_dec : EqDecision EyeOnPropsType.
Proof. solve_decision. Defined.

(** The value of a [change:full] payload: [{ new, old }]. *)
Record full := mkFull { new : any; old : any }.

Global Instance full_eq_dec : EqDecision full.
Proof. solve_decision. Defined.

(** What leaves the engine: the two notifications, the process warning
    of [realTime()], and the timer calls of [clock] and [clear]. *)
Inductive event :=
  | Change (payload : gmap string any)
  | ChangeFull (payload : gmap string full)
  | IntrusiveOverrideWarning
  | SetInterval (ms : any)
  | ClearInterval (id : any).

Global Instance event_eq_dec : EqDecision event.
Proof. solve_decision. Defined.

(** The four [throw] sites of the class, under the names the
    specification gives them, and the [TypeError] with which
    [Object.defineProperty] refuses to redefine a property. *)
Inductive error :=
  | AttributeNotFoundError (p : string)
  | IllegalStrategyTransitionError
  | InvalidRegistrationArgumentsError
  | InvalidModeOperationError
  | CannotRedefinePropertyError (p : string).

Global Instance error_eq_dec : EqDecision error.
Proof. solve_decision. Defined.

(** ** Objects *)

(** A property of a watched object is an ordinary data property, the
    accessor pair installed by [realTime()], whose closure captures the
    variable [value] and the entry object [e], or a data property that is
    not configurable, as [Object.seal] leaves them: it reads and writes
    like an ordinary one, but cannot be redefined. *)
Inductive slot :=
  | Data (v : any)
  | Accessor (captured : any) (e : nat)
  | Sealed (v : any).

Global Instance slot_eq_dec : EqDecision slot.
Proof. solve_decision. Defined.

(** [instance[p]] *)
Definition get_prop (instance : gmap string slot) (p : string) : any :=
  match instance !! p with
  | Some (Data v) => v
  | Some (Accessor v _) => v
  | Some (Sealed v) => v
  | None => VUndefined
  end.

(** ** Records filled by assignment *)

(** [record[k] = v] on a record created by [{}].  The assignment looks
    [k] up along the prototype chain first, and [Object.prototype] has an
    accessor named [__proto__]: for that key its setter runs (it replaces
    the prototype when [v] is an object or [null] and does nothing
    otherwise) and the record gets no own property.  Every other key
    becomes an own property.  Only the own properties are kept, and the
    record is followed as long as its prototype is [Object.prototype]:
    what later assignments do to a simple payload once a [null] or an
    object has been stored under [__proto__] is not followed. *)
Definition assign_key {V} (k : string) (v : V) (record : gmap string V) : gmap string V :=
  if bool_decide (k = "__proto__"%string) then record else <[k := v]> record.

(** ** Engine state *)

Record state := mkState {
  heap : gmap oid (gmap string slot);
  cells : list WatchedEntry;
  entries : list nat;
  mode : EyeOnPropsMode;
  type : EyeOnPropsType;
  intervalId : option any;
  registry : list (oid * string);
}.

Global Instance state_eq_dec : EqDecision state.
Proof. solve_decision. Defined.

(** [instanceRef.deref()] *)
Definition deref (s : state) (r : oid) : option (gmap string slot) := heap s !! r.

(** ** The monad of engine operations: state, notifications, exceptions *)

Inductive completion (A : Type) :=
  | Normal (a : A)
  | Thrown (e : error).
Arguments Normal {A} a.
Arguments Thrown {A} e.

Record run (A : Type) := Run {
  outcome : completion A;
  emitted : list event;
  final : state;
}.
Arguments Run {A} _ _ _.
Arguments outcome {A} _.
Arguments emitted {A} _.
Arguments final {A} _.

Definition M (A : Type) : Type := state → run A.

Definition ret {A} (a : A) : M A := λ s, Run (Normal a) [] s.

Definition bind {A B} (m : M A) (k : A → M B) : M B := λ s,
  let r := m s in
  match outcome r with
  | Normal a =>
      let r' := k a (final r) in
      Run (outcome r') (emitted r ++ emitted r') (final r')
  | Thrown e => Run (Thrown e) (emitted r) (final r)
  end.

Notation "'let*' x := m 'in' k" := (bind m (λ x, k))
  (at level 10, x name, m at level 100, k at level 200, only parsing).
Notation "m ;;; k" := (bind m (λ _, k))
  (at level 100, k at level 200, right associativity, only parsing).

Definition throw {A} (e : error) : M A := λ s, Run (Thrown e) [] s.
Definition emit (ev : event) : M unit := λ s, Run (Normal tt) [ev] s.
Definition read : M state := λ s, Run (Normal s) [] s.
Definition update (f : state → state) : M unit := λ s, Run (Normal tt) [] (f s).

Definition with_heap (f : gmap oid (gmap string slot) → gmap oid (gmap string slot)) (s : state) : state :=
  mkState (f (heap s)) (cells s) (entries s) (mode s) (type s) (intervalId s) (registry s).
Definition with_cells (f : list WatchedEntry → list WatchedEntry) (s : state) : state :=
  mkState (heap s) (f (cells s)) (entries s) (mode s) (type s) (intervalId s) (registry s).
Definition with_entries (f : list nat → list nat) (s : state) : state :=
  mkState (heap s) (cells s) (f (entries s)) (mode s) (type s) (intervalId s) (registry s).
Definition with_mode (m : EyeOnPropsMode) (s : state) : state :=
  mkState (heap s) (cells s) (entries s) m (type s) (intervalId s) (registry s).
Definition with_type (t : EyeOnPropsType) (s : state) : state :=
  mkState (heap s) (cells s) (entries s) (mode s) t (intervalId s) (registry s).
Definition with_intervalId (i : option any) (s : state) : state :=
  mkState (heap s) (cells s) (entries s) (mode s) (type s) i (registry s).
Definition with_registry (f : list (oid * string) → list (oid * string)) (s : state) : state :=
  mkState (heap s) (cells s) (entries s) (mode s) (type s) (intervalId s) (f (registry s)).

(** ** The class *)

(** [new EyeOnProps()], next to a heap of caller objects. *)
Definition create (h : gmap oid (gmap string slot)) : state :=
  mkState h [] [] ModeChanged TypeUndefined None [].

(** [prop in instance] *)
Definition has_prop (s : state) (instance : oid) (p : string) : bool :=
  match deref s instance with
  | Some o => bool_decide (is_Some (o !! p))
  | None => false
  end.

(** [instance[prop]] on a held reference *)
Definition read_prop (s : state) (instance : oid) (p : string) : any :=
  match deref s instance with
  | Some o => get_prop o p
  | None => VUndefined
  end.

(** Whether [Object.defineProperty(instance, prop, ...)] is refused. *)
Definition sealed (s : state) (instance : oid) (p : string) : bool :=
  match deref s instance with
  | Some o => if o !! p is Some (Sealed _) then true else false
  | None => false
  end.

Definition addEntry (instance : oid) (p k : string) : M unit :=
  let* s := read in
  if negb (has_prop s instance p) then throw (AttributeNotFoundError p)
  else
    update (λ s, with_entries (λ es, es ++ [length (cells s)])
                   (with_cells (λ cs, cs ++ [mkEntry instance p k (read_prop s instance p)]) s)) ;;;
    update (with_registry (λ rs, rs ++ [(instance, k)])).

(** The second argument of [watch]: a property name with an optional key,
    a list of [[prop]] / [[prop, key]] tuples, or anything else. *)
Inductive watch_arg :=
  | One (p : string) (k : option string)
  | Many (props : list (string * option string))
  | Other.

Fixpoint watch_each (instance : oid) (props : list (string * option string)) : M unit :=
  match props with
  | [] => ret tt
  | (p, customKey) :: rest =>
      addEntry instance p (default p customKey) ;;; watch_each instance rest
  end.

Definition watch (instance : oid) (arg : watch_arg) : M unit :=
  match arg with
  | One p k => addEntry instance p (default p k)
  | Many props => watch_each instance props
  | Other => throw InvalidRegistrationArgumentsError
  end.

(** [array.forEach(f)] / [for (const x of array)] *)
Fixpoint forEach {A} (f : A → M unit) (l : list A) : M unit :=
  match l with
  | [] => ret tt
  | x :: rest => f x ;;; forEach f rest
  end.

Definition clear : M unit :=
  let* s := read in
  if intervalId s is Some id
  then emit (ClearInterval id) ;;; update (with_intervalId None)
  else ret tt.

(** [setInterval(() => this.check(), ms)] arms a timer, and [intervalId]
    takes its handle; each firing of that timer runs [check] (see
    [tick]). *)
Definition clock (ms : any) : M unit :=
  let* s := read in
  if bool_decide (type s = TypeRealTime) then throw IllegalStrategyTransitionError
  else
    update (with_type TypeClock) ;;;
    clear ;;;
    emit (SetInterval ms) ;;;
    update (with_intervalId (Some ms)).

(** The callback [realTime()] runs on every entry: the property of the
    dereferenced instance becomes an accessor whose closure holds the
    current value and the entry, unless the property is not configurable:
    then [Object.defineProperty] throws, and [forEach] with it. *)
Definition intercept (i : nat) : M unit :=
  let* s := read in
  match cells s !! i with
  | None => ret tt
  | Some e =>
      match deref s (instanceRef e) with
      | None => ret tt
      | Some instance =>
          let value := get_prop instance (prop e) in
          match instance !! prop e with
          | Some (Sealed _) => throw (CannotRedefinePropertyError (prop e))
          | _ => update (with_heap (<[instanceRef e := <[prop e := Accessor value i]> instance]>))
          end
      end
  end.

Definition realTime : M unit :=
  update (with_type TypeRealTime) ;;;
  emit IntrusiveOverrideWarning ;;;
  clear ;;;
  let* s := read in
  forEach intercept (entries s).

Definition all : M unit := update (with_mode ModeAll).

Definition changedOnly : M unit := update (with_mode ModeChanged).

(** The body of the [filter] callback of [check], run over the array in
    order: [cs] is the entry store (with the [lastValue]s written so far)
    and [updates] the local record being filled. *)
Fixpoint check_filter (h : gmap oid (gmap string slot)) (m : EyeOnPropsMode)
    (es : list nat) (cs : list WatchedEntry) (updates : gmap string any)
    : list nat * list WatchedEntry * gmap string any :=
  match es with
  | [] => ([], cs, updates)
  | i :: rest =>
      match cs !! i with
      | None => check_filter h m rest cs updates
      | Some e =>
          match h !! instanceRef e with
          | None => check_filter h m rest cs updates
          | Some instance =>
              let current := get_prop instance (prop e) in
              let changed := strict_neq current (lastValue e) in
              let updates :=
                if bool_decide (m = ModeAll) || changed
                then assign_key (key e) current updates else updates in
              let cs := if changed then <[i := set_lastValue current e]> cs else cs in
              let '(kept, cs, updates) := check_filter h m rest cs updates in
              (i :: kept, cs, updates)
          end
      end
  end.

Definition check : M unit :=
  let* s := read in
  let '(kept, cs, updates) := check_filter (heap s) (mode s) (entries s) (cells s) ∅ in
  update (λ s, with_entries (λ _, kept) (with_cells (λ _, cs) s)) ;;;
  if bool_decide (updates ≠ ∅) then emit (Change updates) else ret tt.

Definition buildAllPayload : M (gmap string any) :=
  let* s := read in
  ret (foldl (λ payload i,
         match cells s !! i with
         | None => payload
         | Some e =>
             match deref s (instanceRef e) with
             | Some instance => assign_key (key e) (get_prop instance (prop e)) payload
             | None => payload
             end
         end) ∅ (entries s)).

Definition buildFullAllPayload : M (gmap string full) :=
  let* s := read in
  if negb (bool_decide (mode s = ModeAll)) then throw InvalidModeOperationError
  else
    ret (foldl (λ payload i,
           match cells s !! i with
           | None => payload
           | Some e =>
               match deref s (instanceRef e) with
               | Some instance =>
                   assign_key (key e) (mkFull (get_prop instance (prop e)) (lastValue e)) payload
               | None => payload
               end
           end) ∅ (entries s)).

(** The [set] function of the accessor installed on property [p] of
    object [o]: [value] is the closure's variable, [i] its entry. *)
Definition set (o : oid) (p : string) (value : any) (i : nat) (v : any) : M unit :=
  if strict_neq v value then
    update (with_heap (alter (<[p := Accessor v i]>) o)) ;;;
    let* s := read in
    match cells s !! i with
    | None => ret tt
    | Some e =>
        (if negb (bool_decide (mode s = ModeUndefined)) then
           let* fullPayload :=
             if bool_decide (mode s = ModeAll) then buildFullAllPayload
             else ret (if strict_neq v (lastValue e)
                       then {[ key e := mkFull v (lastValue e) ]} else ∅) in
           let* payload :=
             if bool_decide (mode s = ModeAll) then buildAllPayload
             else ret {[ key e := v ]} in
           (if bool_decide (payload ≠ ∅) then emit (Change payload) else ret tt) ;;;
           (if bool_decide (fullPayload ≠ ∅) then emit (ChangeFull fullPayload) else ret tt)
         else ret tt) ;;;
        update (with_cells (alter (set_lastValue v) i))
    end
  else ret tt.

Definition unwatch (instance : oid) : M unit :=
  update (λ s, with_entries (List.filter (λ i,
    match cells s !! i with
    | None => false
    | Some e =>
        match deref s (instanceRef e) with
        | Some _ => negb (bool_decide (instanceRef e = instance))
        | None => false
        end
    end)) s).

(** ** The runtime around the class *)

(** The callback given to [new FinalizationRegistry(...)]; the held value
    of a registration is the entry's key. *)
Definition cleanup (k : string) : M unit :=
  update (λ s, with_entries (List.filter (λ i,
    match cells s !! i with
    | None => false
    | Some e => negb (bool_decide (key e = k))
    end)) s).

(** The collector reclaims object [o]: its weak references are cleared. *)
Definition reclaim (o : oid) : M unit := update (with_heap (delete o)).

(** Afterwards the runtime calls the callback once for every registration
    whose target was [o], with the held value of that registration. *)
Definition finalize (o : oid) : M unit :=
  let* s := read in
  update (with_registry (List.filter (λ r, negb (bool_decide (r.1 = o))))) ;;;
  forEach cleanup (map snd (List.filter (λ r, bool_decide (r.1 = o)) (registry s))).

(** The timer the engine holds fires. *)
Definition tick : M unit :=
  let* s := read in
  if intervalId s is Some _ then check else ret tt.

(** Caller code executes [o[p] = v]. *)
Definition assign (o : oid) (p : string) (v : any) : M unit :=
  let* s := read in
  match deref s o with
  | None => ret tt
  | Some instance =>
      match instance !! p with
      | Some (Accessor value i) => set o p value i v
      | Some (Sealed _) => update (with_heap (<[o := <[p := Sealed v]> instance]>))
      | _ => update (with_heap (<[o := <[p := Data v]> instance]>))
      end
  end.

(** Everything that can happen to an engine and the objects it watches. *)
Inductive action :=
  | Watch (instance : oid) (arg : watch_arg)
  | Clock (ms : any)
  | RealTime
  | All
  | ChangedOnly
  | Unwatch (instance : oid)
  | Tick
  | Assign (o : oid) (p : string) (v : any)
  | Reclaim (o : oid)
  | Finalize (o : oid).

Definition perform (a : action) : M unit :=
  match a with
  | Watch instance arg => watch instance arg
  | Clock ms => clock ms
  | RealTime => realTime
  | All => all
  | ChangedOnly => changedOnly
  | Unwatch instance => unwatch instance
  | Tick => tick
  | Assign o p v => assign o p v
  | Reclaim o => reclaim o
  | Finalize o => finalize o
  end.

(** A script of actions; as in a program whose calls are each wrapped in
    [try], an action that throws leaves the state it reached and the
    script goes on. *)
Fixpoint script (acts : list action) (s : state) : list event * state :=
  match acts with
  | [] => ([], s)
  | a :: rest =>
      let r := perform a s in
      let '(evs, s') := script rest (final r) in
      (emitted r ++ evs, s')
  end.

(** ** Scenarios

    Two caller objects, [{ name: "a" }] and [{ name: "b" }], and engines
    driven over them. *)
Definition two_objects : gmap oid (gmap string slot) :=
  {[ 1 := {[ "name"%string := Data (VStr "a") ]};
     2 := {[ "name"%string := Data (VStr "b") ]} ]}.

(** [new EyeOnProps().watch(a, "name", "n").realTime()] *)
Definition intercepting : state :=
  (script [Watch 1 (One "name" (Some "n")); RealTime] (create two_objects)).2.

(** [new EyeOnProps().watch(a, "name").watch(b, "name", "other").clock(1000)] *)
Definition polling : state :=
  (script [Watch 1 (One "name" None); Watch 2 (One "name" (Some "other"));
           Clock (VNum 1000)] (create two_objects)).2.

(** [new EyeOnProps().watch(a, "name")], then whatever [acts] says, after
    which the collector reclaims [a]; no finalization callback has run yet. *)
Definition stale_entry (acts : list action) : state :=
  (script ([Watch 1 (One "name" None)] ++ acts ++ [Reclaim 1]) (create two_objects)).2.

(** [new EyeOnProps().watch(a, "name").watch(b, "name").clock(1000)]: two
    objects watched under the same (default) key. *)
Definition same_key : state :=
  (script [Watch 1 (One "name" None); Watch 2 (One "name" None); Clock (VNum 1000)]
     (create two_objects)).2.

(** An object [{ a: 1, b: 2 }] with both attributes watched. *)
Definition pair_object : gmap oid (gmap string slot) :=
  {[ 1 := {[ "a"%string := Data (VNum 1); "b"%string := Data (VNum 2) ]} ]}.

Definition pair_watched : state :=
  (script [Watch 1 (Many [("a"%string, None); ("b"%string, None)]); Clock (VNum 50)]
     (create pair_object)).2.

(** ** Well-formed states

    Facts about references that JavaScript gives for free: the array holds
    each entry object once, and every reference to an entry object (from
    the array or from a setter closure) points to an allocated one.  The
    last field records what [addEntry] sets up: every entry of the array
    was registered for finalization under its key. *)
Record wf (s : state) : Prop := mkWf {
  wf_nodup : NoDup (entries s);
  wf_entries : ∀ i, i ∈ entries s → i < length (cells s);
  wf_closures : ∀ o instance p v i,
    heap s !! o = Some instance → instance !! p = Some (Accessor v i) →
    i < length (cells s);
  wf_registered : ∀ i e,
    i ∈ entries s → cells s !! i = Some e → (instanceRef e, key e) ∈ registry s;
}.

(** Whether the referent of entry [i] of store [cs] is still in heap [h]. *)
Definition live_in (h : gmap oid (gmap string slot)) (cs : list WatchedEntry) (i : nat) : bool :=
  match cs !! i with
  | None => false
  | Some e => bool_decide (is_Some (h !! instanceRef e))
  end.

(** Whether [this.entries[..]] holds an entry whose referent can still be
    dereferenced. *)
Definition live_entry (s : state) (i : nat) : bool := live_in (heap s) (cells s) i.

(** [instance[e.prop]] for the referent of entry [e]. *)
Definition current_in (h : gmap oid (gmap string slot)) (e : WatchedEntry) : any :=
  match h !! instanceRef e with
  | Some instance => get_prop instance (prop e)
  | None => VUndefined
  end.

Definition current (s : state) (e : WatchedEntry) : any := current_in (heap s) e.

(** The vocabulary of the poll detector's contract: the referent of an
    entry can be dereferenced; its attribute differs ([!==]) from the
    cached value; the entry is to appear in the payload of a tick (every
    live entry under [all], the changed live entries otherwise). *)
Definition referent_alive (s : state) (e : WatchedEntry) : Prop :=
  is_Some (deref s (instanceRef e)).

Definition changed (s : state) (e : WatchedEntry) : Prop :=
  strict_neq (current s e) (lastValue e) = true.

Definition reported (s : state) (e : WatchedEntry) : Prop :=
  referent_alive s e ∧
  match mode s with ModeAll => True | _ => changed s e end.

(** One iteration of the poll loop seen from outside: what it does to the
    entry it visits and to the record of updates. *)
Definition refreshed (h : gmap oid (gmap string slot)) (e : WatchedEntry) : WatchedEntry :=
  match h !! instanceRef e with
  | Some instance =>
      if strict_neq (get_prop instance (prop e)) (lastValue e)
      then set_lastValue (get_prop instance (prop e)) e else e
  | None => e
  end.

Definition may_report (h : gmap oid (gmap string slot)) (m : EyeOnPropsMode)
    (e : WatchedEntry) : bool :=
  match h !! instanceRef e with
  | Some instance =>
      bool_decide (m = ModeAll) || strict_neq (get_prop instance (prop e)) (lastValue e)
  | None => false
  end.

Definition report (h : gmap oid (gmap string slot)) (m : EyeOnPropsMode)
    (cs : list WatchedEntry) (updates : gmap string any) (i : nat) : gmap string any :=
  match cs !! i with
  | Some e => if may_report h m e then assign_key (key e) (current_in h e) updates else updates
  | None => updates
  end.

(** Two entry stores that differ in [lastValue] fields only. *)
Definition same_shape (cs cs' : list WatchedEntry) : Prop :=
  set_lastValue VUndefined <$> cs = set_lastValue VUndefined <$> cs'.

(** The part of the state that only the mode selector writes. *)
Definition selector (s : state) : EyeOnPropsMode * EyeOnPropsType * option any :=
  (mode s, type s, intervalId s).

(** [s'] differs from [s] at most in [lastValue] fields. *)
Definition frame (s s' : state) : Prop :=
  heap s' = heap s ∧ selector s' = selector s ∧ entries s' = entries s ∧
  registry s' = registry s ∧ same_shape (cells s') (cells s).

(** Every setter closure of heap [h'] is, in heap [h], a setter closure on
    the same property for the same entry. *)
Definition closures_within (h h' : gmap oid (gmap string slot)) : Prop :=
  ∀ o instance p v i,
    h' !! o = Some instance → instance !! p = Some (Accessor v i) →
    ∃ instance0 v0, h !! o = Some instance0 ∧ instance0 !! p = Some (Accessor v0 i).

(** [m], started in [s], completes normally within the frame. *)
Definition quiet_at {A} (m : M A) (s : state) : Prop :=
  ∃ a evs s', m s = Run (Normal a) evs s' ∧ frame s s'.

(** Property [p] of object [o] is intercepted in [s]: its setter closure
    holds [v] and belongs to one of the entries [l] watching [(o, p)]. *)
Definition intercepted_by (s : state) (l : list nat) (o : oid) (p : string) (v : any) : Prop :=
  ∃ instance j e,
    heap s !! o = Some instance ∧ instance !! p = Some (Accessor v j) ∧
    j ∈ l ∧ cells s !! j = Some e ∧ instanceRef e = o ∧ prop e = p.

(** ** Version 2.0.0

    The earlier version of the class (src/index.ts) holds the watched
    instance in the entry itself ([instance] instead of [instanceRef]), so
    nothing is ever dereferenced; it has no finalization registry and no
    [unwatch].  [clock], [clear], [all] and [changedOnly] have the same
    text in both versions; the functions below are the ones that differ. *)
Module V2_0.

(** [addEntry(entry)]: the pushed copy takes a fresh [lastValue]. *)
Definition addEntry (entry : WatchedEntry) : M unit :=
  let* s := read in
  if negb (has_prop s (instanceRef entry) (prop entry))
  then throw (AttributeNotFoundError (prop entry))
  else
    update (λ s, with_entries (λ es, es ++ [length (cells s)])
      (with_cells (λ cs, cs ++ [set_lastValue (read_prop s (instanceRef entry) (prop entry)) entry]) s)).

Fixpoint watch_each (instance : oid) (props : list (string * option string)) : M unit :=
  match props with
  | [] => ret tt
  | (p, customKey) :: rest =>
      (let* s := read in
       addEntry (mkEntry instance p (default p customKey) (read_prop s instance p))) ;;;
      watch_each instance rest
  end.

Definition watch (instance : oid) (arg : watch_arg) : M unit :=
  match arg with
  | One p k =>
      let* s := read in
      addEntry (mkEntry instance p (default p k) (read_prop s instance p))
  | Many props => watch_each instance props
  | Other => throw InvalidRegistrationArgumentsError
  end.

Definition intercept (i : nat) : M unit :=
  let* s := read in
  match cells s !! i with
  | None => ret tt
  | Some e =>
      let value := read_prop s (instanceRef e) (prop e) in
      if sealed s (instanceRef e) (prop e)
      then throw (CannotRedefinePropertyError (prop e))
      else update (with_heap (alter <[prop e := Accessor value i]> (instanceRef e)))
  end.

Definition realTime : M unit :=
  update (with_type TypeRealTime) ;;;
  emit IntrusiveOverrideWarning ;;;
  clear ;;;
  let* s := read in
  forEach intercept (entries s).

(** The [for] loop of [check]. *)
Fixpoint check_loop (h : gmap oid (gmap string slot)) (m : EyeOnPropsMode)
    (es : list nat) (cs : list WatchedEntry) (updates : gmap string any)
    : list WatchedEntry * gmap string any :=
  match es with
  | [] => (cs, updates)
  | i :: rest =>
      match cs !! i with
      | None => check_loop h m rest cs updates
      | Some e =>
          let current := current_in h e in
          let changed := strict_neq current (lastValue e) in
          let updates :=
            if bool_decide (m = ModeAll) || changed
            then assign_key (key e) current updates else updates in
          let cs := if changed then <[i := set_lastValue current e]> cs else cs in
          check_loop h m rest cs updates
      end
  end.

Definition check : M unit :=
  let* s := read in
  let '(cs, updates) := check_loop (heap s) (mode s) (entries s) (cells s) ∅ in
  update (with_cells (λ _, cs)) ;;;
  if bool_decide (updates ≠ ∅) then emit (Change updates) else ret tt.

Definition buildAllPayload : M (gmap string any) :=
  let* s := read in
  ret (foldl (λ payload i,
         match cells s !! i with
         | None => payload
         | Some e => assign_key (key e) (current s e) payload
         end) ∅ (entries s)).

Definition buildFullAllPayload : M (gmap string full) :=
  let* s := read in
  if negb (bool_decide (mode s = ModeAll)) then throw InvalidModeOperationError
  else
    ret (foldl (λ payload i,
           match cells s !! i with
           | None => payload
           | Some e => assign_key (key e) (mkFull (current s e) (lastValue e)) payload
           end) ∅ (entries s)).

Definition set (o : oid) (p : string) (value : any) (i : nat) (v : any) : M unit :=
  if strict_neq v value then
    update (with_heap (alter (<[p := Accessor v i]>) o)) ;;;
    let* s := read in
    match cells s !! i with
    | None => ret tt
    | Some e =>
        (if negb (bool_decide (mode s = ModeUndefined)) then
           let* fullPayload :=
             if bool_decide (mode s = ModeAll) then buildFullAllPayload
             else ret (if strict_neq v (lastValue e)
                       then {[ key e := mkFull v (lastValue e) ]} else ∅) in
           let* payload :=
             if bool_decide (mode s = ModeAll) then buildAllPayload
             else ret {[ key e := v ]} in
           (if bool_decide (payload ≠ ∅) then emit (Change payload) else ret tt) ;;;
           (if bool_decide (fullPayload ≠ ∅) then emit (ChangeFull fullPayload) else ret tt)
         else ret tt) ;;;
        update (with_cells (alter (set_lastValue v) i))
    end
  else ret tt.

Definition assign (o : oid) (p : string) (v : any) : M unit :=
  let* s := read in
  match deref s o with
  | None => ret tt
  | Some instance =>
      match instance !! p with
      | Some (Accessor value i) => set o p value i v
      | Some (Sealed _) => update (with_heap (<[o := <[p := Sealed v]> instance]>))
      | _ => update (with_heap (<[o := <[p := Data v]> instance]>))
      end
  end.

(** The timer the engine holds fires. *)
Definition tick : M unit :=
  let* s := read in
  if intervalId s is Some _ then check else ret tt.

(** What can happen to an engine of version 2.0.0: it has no [unwatch],
    and the objects it watches are never collected. *)
Inductive action :=
  | Watch (instance : oid) (arg : watch_arg)
  | Clock (ms : any)
  | RealTime
  | All
  | ChangedOnly
  | Tick
  | Assign (o : oid) (p : string) (v : any).

Definition perform (a : action) : M unit :=
  match a with
  | Watch instance arg => watch instance arg
  | Clock ms => clock ms
  | RealTime => realTime
  | All => all
  | ChangedOnly => changedOnly
  | Tick => tick
  | Assign o p v => assign o p v
  end.

Fixpoint script (acts : list action) (s : state) : list event * state :=
  match acts with
  | [] => ([], s)
  | a :: rest =>
      let r := perform a s in
      let '(evs, s') := script rest (final r) in
      (emitted r ++ evs, s')
  end.

End V2_0.

(** The same action on an engine of version 2.1.0. *)
Definition upgrade (a : V2_0.action) : action :=
  match a with
  | V2_0.Watch instance arg => Watch instance arg
  | V2_0.Clock ms => Clock ms
  | V2_0.RealTime => RealTime
  | V2_0.All => All
  | V2_0.ChangedOnly => ChangedOnly
  | V2_0.Tick => Tick
  | V2_0.Assign o p v => Assign o p v
  end.

(** Every reference of the array points to an entry whose instance is in
    the heap: what a version that holds its instances strongly always has. *)
Definition all_alive (s : state) : Prop :=
  ∀ i, i ∈ entries s → live_entry s i = true.

(** The entry [addEntry] allocates for item [(p, key?)] of a registration
    of [instance] made in state [s]. *)
Definition snapshot (s : state) (instance : oid) (item : string * option string) : WatchedEntry :=
  mkEntry instance item.1 (default item.1 item.2) (read_prop s instance item.1).

(** The items of a batch up to the first one whose attribute is missing. *)
Fixpoint registrable (s : state) (instance : oid) (props : list (string * option string))
    : list (string * option string) :=
  match props with
  | [] => []
  | item :: rest =>
      if has_prop s instance item.1 then item :: registrable s instance rest else []
  end.

(** State [s] after the entry objects [added] have been allocated, pushed
    and registered for finalization, in this order. *)
Definition with_added (added : list WatchedEntry) (s : state) : state :=
  mkState (heap s) (cells s ++ added)
    (entries s ++ seq (length (cells s)) (length added))
    (mode s) (type s) (intervalId s)
    (registry s ++ map (λ e, (instanceRef e, key e)) added).

(** How a registration of [props] ends. *)
Definition registration_outcome (s : state) (instance : oid)
    (props : list (string * option string)) : completion unit :=
  match drop (length (registrable s instance props)) props with
  | [] => Normal tt
  | item :: _ => Thrown (AttributeNotFoundError item.1)
  end.

(** The records [buildAllPayload] and [buildFullAllPayload] return. *)
Definition all_payload (s : state) : gmap string any :=
  foldl (λ payload i,
    match cells s !! i with
    | None => payload
    | Some e =>
        match deref s (instanceRef e) with
        | Some instance => assign_key (key e) (get_prop instance (prop e)) payload
        | None => payload
        end
    end) ∅ (entries s).

Definition full_payload (s : state) : gmap string full :=
  foldl (λ payload i,
    match cells s !! i with
    | None => payload
    | Some e =>
        match deref s (instanceRef e) with
        | Some instance =>
            assign_key (key e) (mkFull (get_prop instance (prop e)) (lastValue e)) payload
        | None => payload
        end
    end) ∅ (entries s).

(** What the setter of entry [e] publishes for the new value [v], in the
    state [s] it reaches once its closure holds [v]. *)
Definition publications (s : state) (e : WatchedEntry) (v : any) : list event :=
  match mode s with
  | ModeUndefined => []
  | ModeChanged =>
      Change {[ key e := v ]} ::
      (if strict_neq v (lastValue e)
       then [ChangeFull {[ key e := mkFull v (lastValue e) ]}] else [])
  | ModeAll =>
      (if bool_decide (all_payload s ≠ ∅) then [Change (all_payload s)] else []) ++
      (if bool_decide (full_payload s ≠ ∅) then [ChangeFull (full_payload s)] else [])
  end.

(** How [Object.defineProperty], and with it [realTime()], can end. *)
Definition redefinition (out : completion unit) : Prop :=
  out = Normal tt ∨ ∃ p, out = Thrown (CannotRedefinePropertyError p).

(** The [clearInterval] call of [clear], if it makes one. *)
Definition disarmed (s : state) : list event :=
  match intervalId s with
  | Some id => [ClearInterval id]
  | None => []
  end.

Fixpoint remove_first (id : any) (timers : list any) : list any :=
  match timers with
  | [] => []
  | t :: rest => if bool_decide (t = id) then rest else t :: remove_first id rest
  end.

(** The timers that are armed in the runtime once the calls of a trace
    have been made, [timers] being the ones armed before. *)
Fixpoint armed (trace : list event) (timers : list any) : list any :=
  match trace with
  | [] => timers
  | SetInterval ms :: rest => armed rest (timers ++ [ms])
  | ClearInterval id :: rest => armed rest (remove_first id timers)
  | _ :: rest => armed rest timers
  end.

(** The events that are calls to the runtime's timers. *)
Definition timer_call (ev : event) : bool :=
  match ev with
  | SetInterval _ | ClearInterval _ => true
  | _ => false
  end.

(** The timer the engine holds a handle of. *)
Definition held_timer (s : state) : list any :=
  match intervalId s with
  | Some id => [id]
  | None => []
  end.

(** No entry of the array is keyed [__proto__]: every assignment
    [record[e.key] = v] of the payload builders creates the own property
    [e.key]. *)
Definition ordinary_keys (s : state) : Prop :=
  ∀ i e, i ∈ entries s → cells s !! i = Some e → key e ≠ "__proto__"%string.

(** [const a = { name: "a" }; new EyeOnProps().watch(a, "name", "__proto__")],
    and then [.clock(1000); a.name = "z"]. *)
Definition proto_keyed : state :=
  (script [Watch 1 (One "name" (Some "__proto__"))] (create two_objects)).2.

Definition proto_polled : state :=
  (script [Clock (VNum 1000); Assign 1 "name" (VStr "z")] proto_keyed).2.

(** Two caller objects, the first one sealed ([Object.seal]), both
    watched: the sealed one first in [sealed_first], last in
    [sealed_last]. *)
Definition sealed_objects : gmap oid (gmap string slot) :=
  {[ 1 := {[ "name"%string := Sealed (VStr "a") ]};
     2 := {[ "name"%string := Data (VStr "b") ]} ]}.

Definition sealed_first : state :=
  (script [Watch 1 (One "name" None); Watch 2 (One "name" (Some "other"))]
     (create sealed_objects)).2.

Definition sealed_last : state :=
  (script [Watch 2 (One "name" (Some "other")); Watch 1 (One "name" None)]
     (create sealed_objects)).2.

(** * Properties *)

Ltac unfold_M :=
  unfold bind, read, update, ret, throw, emit in *; simpl in *.

(** ** Equations of the monad *)

Lemma bind_eq {A B} (m : M A) (k : A → M B) (s : state) :
  bind m k s =
  match outcome (m s) with
  | Normal a =>
      Run (outcome (k a (final (m s))))
          (emitted (m s) ++ emitted (k a (final (m s))))
          (final (k a (final (m s))))
  | Thrown e => Run (Thrown e) (emitted (m s)) (final (m s))
  end.
Proof. reflexivity. Qed.

Lemma bind_read {B} (k : state → M B) (s : state) : bind read k s = k s s.
Proof. unfold bind, read. simpl. by destruct (k s s). Qed.

Lemma bind_update {B} (f : state → state) (k : unit → M B) (s : state) :
  bind (update f) k s = k tt (f s).
Proof. unfold bind, update. simpl. by destruct (k tt (f s)). Qed.

Lemma bind_ret {A B} (a : A) (k : A → M B) (s : state) : bind (ret a) k s = k a s.
Proof. unfold bind, ret. simpl. by destruct (k a s). Qed.

Lemma bind_throw {A B} (e : error) (k : A → M B) (s : state) :
  bind (throw e) k s = Run (Thrown e) [] s.
Proof. done. Qed.

Lemma bind_emit {B} (ev : event) (k : unit → M B) (s : state) :
  bind (emit ev) k s = Run (outcome (k tt s)) (ev :: emitted (k tt s)) (final (k tt s)).
Proof. done. Qed.

Lemma bind_Normal {A B} (m : M A) (k : A → M B) s a evs s' :
  m s = Run (Normal a) evs s' →
  bind m k s = Run (outcome (k a s')) (evs ++ emitted (k a s')) (final (k a s')).
Proof. intros H. unfold bind. by rewrite H. Qed.

Lemma bind_Thrown {A B} (m : M A) (k : A → M B) s e evs s' :
  m s = Run (Thrown e) evs s' → bind m k s = Run (Thrown e) evs s'.
Proof. intros H. unfold bind. by rewrite H. Qed.

Lemma bind_assoc {A B C} (m : M A) (k1 : A → M B) (k2 : B → M C) (s : state) :
  bind (bind m k1) k2 s = bind m (λ a, bind (k1 a) k2) s.
Proof.
  unfold bind. destruct (m s) as [[a|e] evs s1]; cbn [outcome emitted final]; [|done].
  destruct (k1 a s1) as [[b|e] evs1 s2]; cbn [outcome emitted final]; [|done].
  by rewrite app_assoc.
Qed.

Ltac msimpl :=
  repeat first
    [ rewrite bind_assoc | rewrite bind_read | rewrite bind_update | rewrite bind_ret
    | rewrite bind_throw | rewrite bind_emit ].

Lemma forEach_cons {A} (f : A → M unit) (x : A) (l : list A) :
  forEach f (x :: l) = bind (f x) (λ _, forEach f l).
Proof. reflexivity. Qed.


(** ** Which fields an operation touches *)

Lemma addEntry_selector instance p k s :
  selector (final (addEntry instance p k s)) = selector s.
Proof. unfold addEntry. unfold_M. by destruct (has_prop s instance p). Qed.

Lemma watch_each_selector instance props s :
  selector (final (watch_each instance props s)) = selector s.
Proof.
  revert s. induction props as [|[p k] props IH]; intros s; [done|].
  cbn [watch_each]. rewrite bind_eq.
  pose proof (addEntry_selector instance p (default p k) s) as H.
  destruct (outcome (addEntry instance p (default p k) s)); cbn [final]; [|done].
  by rewrite IH.
Qed.

Lemma intercept_run i s :
  ∃ out s', intercept i s = Run out [] s' ∧ redefinition out ∧
        selector s' = selector s ∧
        cells s' = cells s ∧ entries s' = entries s ∧ registry s' = registry s.
Proof.
  unfold intercept, redefinition. msimpl.
  destruct (cells s !! i) as [e|]; [|by eexists _, _; split; [|split; [left|]]].
  destruct (deref s _) as [instance|]; [|by eexists _, _; split; [|split; [left|]]].
  destruct (instance !! prop e) as [[w|value j|w]|];
    eexists _, _; (split; [reflexivity|]); (split; [|done]); eauto.
Qed.

Lemma forEach_intercept_run l s :
  ∃ out s', forEach intercept l s = Run out [] s' ∧ redefinition out ∧
        selector s' = selector s ∧
        cells s' = cells s ∧ entries s' = entries s ∧ registry s' = registry s.
Proof.
  revert s. induction l as [|i l IH]; intros s; [by exists (Normal tt), s; split; [|split; [left|]]|].
  rewrite forEach_cons.
  destruct (intercept_run i s) as (out1 & s1 & Hrun & [->|[p ->]] & H1 & H2 & H3 & H4).
  - rewrite (bind_Normal _ _ _ _ _ _ Hrun).
    destruct (IH s1) as (out & s2 & -> & Hout & ? & ? & ? & ?). exists out, s2.
    cbn [outcome emitted final app]. repeat split; try done; congruence.
  - rewrite (bind_Thrown _ _ _ _ _ _ Hrun). eexists _, s1.
    split; [done|]. split; [right; eauto|done].
Qed.

Lemma cleanup_run k s :
  ∃ s', cleanup k s = Run (Normal tt) [] s' ∧ selector s' = selector s ∧
        cells s' = cells s ∧ heap s' = heap s ∧ registry s' = registry s.
Proof. unfold cleanup. unfold_M. by eexists. Qed.

Lemma forEach_cleanup_run l s :
  ∃ s', forEach cleanup l s = Run (Normal tt) [] s' ∧ selector s' = selector s ∧
        cells s' = cells s ∧ heap s' = heap s ∧ registry s' = registry s.
Proof.
  revert s. induction l as [|k l IH]; intros s; [by exists s|].
  rewrite forEach_cons, bind_eq.
  destruct (cleanup_run k s) as (s1 & -> & H1 & H2 & H3 & H4). cbn [outcome final emitted].
  destruct (IH s1) as (s2 & -> & ? & ? & ? & ?). exists s2.
  repeat split; congruence.
Qed.

Lemma check_selector s : selector (final (check s)) = selector s.
Proof.
  unfold check. unfold_M.
  destruct (check_filter _ _ _ _ _) as [[kept cs] updates]. simpl.
  by destruct (bool_decide (updates ≠ ∅)).
Qed.

Lemma buildAllPayload_run s :
  ∃ payload, buildAllPayload s = Run (Normal payload) [] s.
Proof. unfold buildAllPayload. unfold_M. eauto. Qed.

Lemma buildFullAllPayload_run s :
  (mode s = ModeAll ∧ ∃ payload, buildFullAllPayload s = Run (Normal payload) [] s) ∨
  (mode s ≠ ModeAll ∧ buildFullAllPayload s = Run (Thrown InvalidModeOperationError) [] s).
Proof.
  unfold buildFullAllPayload. unfold_M.
  destruct (bool_decide_reflect (mode s = ModeAll)); simpl; eauto.
Qed.

Lemma same_shape_alter cs i v : same_shape (alter (set_lastValue v) i cs) cs.
Proof.
  unfold same_shape. apply list_eq. intros j. rewrite !list_lookup_fmap.
  destruct (decide (i = j)) as [->|Hne].
  - rewrite list_lookup_alter_eq. by destruct (cs !! j).
  - by rewrite list_lookup_alter_ne.
Qed.


(** ** The frame of a detection pass *)


Lemma frame_refl s : frame s s.
Proof. done. Qed.

Lemma frame_trans s1 s2 s3 : frame s1 s2 → frame s2 s3 → frame s1 s3.
Proof.
  unfold frame, same_shape. intros (?&?&?&?&?) (?&?&?&?&?).
  repeat split; congruence.
Qed.


Lemma quiet_bind {A B} (m : M A) (k : A → M B) s :
  quiet_at m s →
  (∀ a evs s', m s = Run (Normal a) evs s' → quiet_at (k a) s') →
  quiet_at (bind m k) s.
Proof.
  intros (a & evs & s' & Hm & Hf) Hk.
  destruct (Hk a evs s' Hm) as (b & evs' & s'' & Hk' & Hf').
  exists b, (evs ++ evs'), s''. split; [|by eapply frame_trans].
  rewrite (bind_Normal _ _ _ _ _ _ Hm). by rewrite Hk'.
Qed.

Lemma quiet_ret {A} (a : A) s : quiet_at (ret a) s.
Proof. by exists a, [], s. Qed.

Lemma quiet_emit ev s : quiet_at (emit ev) s.
Proof. by exists tt, [ev], s. Qed.

Lemma quiet_buildAllPayload s : quiet_at buildAllPayload s.
Proof. destruct (buildAllPayload_run s) as [payload H]. by exists payload, [], s. Qed.

Lemma quiet_buildFullAllPayload s : mode s = ModeAll → quiet_at buildFullAllPayload s.
Proof.
  intros Hm. destruct (buildFullAllPayload_run s) as [[_ [payload H]]|[? _]]; [|done].
  by exists payload, [], s.
Qed.

Lemma set_frame o p value i v s :
  ∃ evs s', set o p value i v s = Run (Normal tt) evs s' ∧
    frame (if strict_neq v value then with_heap (alter <[p:=Accessor v i]> o) s else s) s'.
Proof.
  assert (Hq : ∀ m s0, quiet_at (A:=unit) m s0 → ∃ evs s', m s0 = Run (Normal tt) evs s' ∧ frame s0 s').
  { intros m s0 ([] & evs & s' & H & Hf). by exists evs, s'. }
  unfold set. destruct (strict_neq v value); [|by exists [], s].
  msimpl. set (s1 := with_heap _ s). apply Hq. clearbody s1.
  destruct (cells s1 !! i) as [e|]; [|apply quiet_ret].
  apply quiet_bind.
  - destruct (mode s1) eqn:Hm; cbn [negb bool_decide decide_rel EyeOnPropsMode_eq_dec];
      try apply quiet_ret.
    all: repeat first [ apply quiet_buildFullAllPayload; done | apply quiet_buildAllPayload
      | apply quiet_ret | apply quiet_emit | apply quiet_bind; [|intros ? ? ? _] | case_bool_decide ].
  - intros _ _ s2 _. exists tt, [], (with_cells (alter (set_lastValue v) i) s2).
    split; [done|]. repeat split. apply same_shape_alter.
Qed.

Lemma closures_within_refl h : closures_within h h.
Proof. intros o instance p v i ??. eauto. Qed.

(** An assignment by caller code always completes normally; it touches
    the assigned property and [lastValue] fields and nothing else, and it
    creates no setter closure. *)
Lemma assign_frame o p v s :
  ∃ evs s', assign o p v s = Run (Normal tt) evs s' ∧
    selector s' = selector s ∧ entries s' = entries s ∧
    registry s' = registry s ∧ same_shape (cells s') (cells s) ∧
    closures_within (heap s) (heap s').
Proof.
  unfold assign. msimpl. destruct (deref s o) as [instance|] eqn:Ho.
  2:{ exists [], s. repeat split; try done. apply closures_within_refl. }
  unfold deref in Ho.
  assert (Hplain : ∀ d, (∀ v' j, d ≠ Accessor v' j) →
            closures_within (heap s) (heap (with_heap <[o:=<[p:=d]> instance]> s))).
  { intros d Hd o' instance' q v' j. cbn [with_heap heap]. rewrite lookup_insert.
    case_decide as Hoo; [subst o'|by eauto]. intros [= <-]. rewrite lookup_insert.
    case_decide; [intros [= ->]; by destruct (Hd v' j)|]. eauto. }
  destruct (instance !! p) as [[w|value i|w]|] eqn:Hp.
  - eexists [], _. split; [done|]. repeat split; try done. by apply Hplain.
  - destruct (set_frame o p value i v s) as (evs & s' & H & Hh & Hsel & He & Hr & Hc).
    exists evs, s'. split; [done|]. destruct (strict_neq v value).
    + repeat split; try done. rewrite Hh. cbn [with_heap heap].
      intros o' instance' q v' j. rewrite lookup_alter.
      case_decide as Hoo; [subst o'|by eauto]. rewrite Ho. cbn. intros [= <-].
      rewrite lookup_insert. case_decide as Hq; [subst q|by eauto].
      intros [= <- <-]. eauto.
    + repeat split; try done. rewrite Hh. apply closures_within_refl.
  - eexists [], _. split; [done|]. repeat split; try done. by apply Hplain.
  - eexists [], _. split; [done|]. repeat split; try done. by apply Hplain.
Qed.

(** ** The mode selector *)

Lemma selector_mode s s' : selector s' = selector s → mode s' = mode s.
Proof. unfold selector. congruence. Qed.

Lemma selector_type s s' : selector s' = selector s → type s' = type s.
Proof. unfold selector. congruence. Qed.

(** [clear()] cancels the timer the engine holds, if it holds one. *)
Lemma clear_run s :
  clear s = Run (Normal tt) (disarmed s) (with_intervalId None s) ∨
  (intervalId s = None ∧ clear s = Run (Normal tt) [] s).
Proof. unfold clear, disarmed. msimpl. destruct (intervalId s); [by left|by right]. Qed.

Lemma clear_fields s :
  ∃ s', clear s = Run (Normal tt) (disarmed s) s' ∧ intervalId s' = None ∧
    mode s' = mode s ∧ type s' = type s ∧ entries s' = entries s ∧
    cells s' = cells s ∧ heap s' = heap s ∧ registry s' = registry s.
Proof.
  destruct (clear_run s) as [H|[H1 H]]; rewrite H; [by eexists|].
  unfold disarmed. rewrite H1. by eexists.
Qed.

Lemma realTime_run s :
  ∃ out s', realTime s = Run out (IntrusiveOverrideWarning :: disarmed s) s' ∧
    redefinition out ∧
    type s' = TypeRealTime ∧ mode s' = mode s ∧ intervalId s' = None ∧
    entries s' = entries s ∧ cells s' = cells s ∧ registry s' = registry s.
Proof.
  unfold realTime. msimpl.
  destruct (clear_fields (with_type TypeRealTime s)) as (s1 & H1 & Hi & Hm & Ht & He & Hc & Hh & Hr).
  rewrite (bind_Normal _ _ _ _ _ _ H1). msimpl.
  destruct (forEach_intercept_run (entries s1) s1) as (out & s2 & -> & Hout & Hsel & Hc2 & He2 & Hr2).
  exists out, s2. cbn [outcome emitted final]. rewrite app_nil_r.
  split; [done|]. split; [done|]. unfold selector in Hsel.
  repeat split; simpl in *; congruence.
Qed.

Lemma perform_mode a s :
  mode (final (perform a s)) =
  match a with All => ModeAll | ChangedOnly => ModeChanged | _ => mode s end.
Proof.
  destruct a as [instance arg|ms| | | |instance| |o p v|o|o]; cbn [perform]; try done.
  - apply selector_mode. destruct arg as [p k|props|]; cbn [watch].
    + apply addEntry_selector.
    + apply watch_each_selector.
    + done.
  - unfold clock. msimpl. case_bool_decide; [done|]. msimpl.
    destruct (clear_fields (with_type TypeClock s)) as (s1 & H1 & _ & Hm & _).
    rewrite (bind_Normal _ _ _ _ _ _ H1). simpl in *. congruence.
  - destruct (realTime_run s) as (out & s' & -> & _ & _ & Hm & _). exact Hm.
  - unfold tick. msimpl. destruct (intervalId s); [|done].
    apply selector_mode, check_selector.
  - destruct (assign_frame o p v s) as (evs & s' & -> & Hsel & _).
    by apply selector_mode.
  - unfold finalize. msimpl.
    destruct (forEach_cleanup_run (map snd (List.filter (λ r : oid * string, bool_decide (r.1 = o)) (registry s)))
      (with_registry (List.filter (λ r : oid * string, negb (bool_decide (r.1 = o)))) s))
      as (s' & -> & Hsel & _).
    by apply selector_mode in Hsel.
Qed.

Lemma perform_type_locked a s :
  type s = TypeRealTime → type (final (perform a s)) = TypeRealTime.
Proof.
  intros Hlocked.
  destruct a as [instance arg|ms| | | |instance| |o p v|o|o]; cbn [perform]; try done.
  - rewrite <- Hlocked. apply selector_type. destruct arg as [p k|props|]; cbn [watch].
    + apply addEntry_selector.
    + apply watch_each_selector.
    + done.
  - unfold clock. msimpl. by rewrite bool_decide_eq_true_2.
  - destruct (realTime_run s) as (out & s' & -> & _ & Ht & _). exact Ht.
  - unfold tick. msimpl. destruct (intervalId s); [|done].
    rewrite <- Hlocked. apply selector_type, check_selector.
  - destruct (assign_frame o p v s) as (evs & s' & -> & Hsel & _).
    rewrite <- Hlocked. by apply selector_type.
  - unfold finalize. msimpl.
    destruct (forEach_cleanup_run (map snd (List.filter (λ r : oid * string, bool_decide (r.1 = o)) (registry s)))
      (with_registry (List.filter (λ r : oid * string, negb (bool_decide (r.1 = o)))) s))
      as (s' & -> & Hsel & _).
    apply selector_type in Hsel. by rewrite <- Hlocked.
Qed.

Lemma script_cons a acts s :
  script (a :: acts) s =
  (emitted (perform a s) ++ (script acts (final (perform a s))).1,
   (script acts (final (perform a s))).2).
Proof. cbn [script]. by destruct (script acts (final (perform a s))). Qed.

Lemma script_type_locked acts s :
  type s = TypeRealTime → type (script acts s).2 = TypeRealTime.
Proof.
  revert s. induction acts as [|a acts IH]; intros s Hs; [done|].
  rewrite script_cons. cbn [snd]. by apply IH, perform_type_locked.
Qed.

(** Once [realTime()] has been called the strategy is [real-time] for
    good, whatever happens to the engine afterwards. *)
Lemma realTime_is_permanent acts s :
  type (script (RealTime :: acts) s).2 = TypeRealTime.
Proof.
  rewrite script_cons. cbn [snd]. apply script_type_locked.
  cbn [perform]. destruct (realTime_run s) as (out & s' & -> & _ & Ht & _). exact Ht.
Qed.

(** C1. After interception has been activated, [clock(ms)] throws the
    illegal-transition error for every interval value [ms], publishes
    nothing and leaves the whole state as it was: no timer is armed
    ([intervalId] is untouched), the strategy is still [real-time], and
    no entry and no object is modified. *)
Theorem clock_after_realTime_throws (ms : any) (s : state) :
  type s = TypeRealTime →
  clock ms s = Run (Thrown IllegalStrategyTransitionError) [] s.
Proof.
  intros Hlocked. unfold clock. msimpl.
  by rewrite bool_decide_eq_true_2.
Qed.

Lemma clock_after_realTime_throws_witness :
  type intercepting = TypeRealTime ∧
  clock (VNum 1000) intercepting = Run (Thrown IllegalStrategyTransitionError) [] intercepting.
Proof.
  split; [vm_compute; reflexivity|].
  apply (clock_after_realTime_throws (VNum 1000) intercepting).
  vm_compute. reflexivity.
Defined.

(** ** Registration *)

Lemma addEntry_missing instance p k s :
  has_prop s instance p = false →
  addEntry instance p k s = Run (Thrown (AttributeNotFoundError p)) [] s.
Proof. intros H. unfold addEntry. msimpl. by rewrite H. Qed.

Lemma addEntry_present instance p k s :
  has_prop s instance p = true →
  addEntry instance p k s =
  Run (Normal tt) []
    (mkState (heap s) (cells s ++ [mkEntry instance p k (read_prop s instance p)])
       (entries s ++ [length (cells s)]) (mode s) (type s) (intervalId s)
       (registry s ++ [(instance, k)])).
Proof. intros H. unfold addEntry. msimpl. by rewrite H. Qed.

(** C5. Registering an attribute that is not present on the object throws
    the attribute-not-found error and leaves the state as it was: no entry
    object is allocated, the array of entries (hence its size) and the
    finalization registry are unchanged. *)
Theorem watch_missing_attribute (instance : oid) (p : string) (k : option string) (s : state) :
  has_prop s instance p = false →
  watch instance (One p k) s = Run (Thrown (AttributeNotFoundError p)) [] s.
Proof. intros H. cbn [watch]. by apply addEntry_missing. Qed.

Lemma watch_missing_attribute_witness :
  has_prop polling 1 "age" = false ∧
  watch 1 (One "age" None) polling = Run (Thrown (AttributeNotFoundError "age")) [] polling.
Proof.
  split; [vm_compute; reflexivity|].
  apply (watch_missing_attribute 1 "age" None polling).
  vm_compute. reflexivity.
Defined.

(** Batch registration is fail-fast: the items before the first missing
    attribute stay registered. *)
Lemma watch_many_fail_fast :
  let r := watch 1 (Many [("name"%string, Some "n"%string); ("age"%string, None)]) (create two_objects) in
  outcome r = Thrown (AttributeNotFoundError "age") ∧ entries (final r) = [0].
Proof. vm_compute. done. Qed.

(** ** Defaults of a fresh engine *)

Lemma script_mode_changed acts s :
  All ∉ acts → mode s = ModeChanged → mode (script acts s).2 = ModeChanged.
Proof.
  revert s. induction acts as [|a acts IH]; intros s Hno Hs; [done|].
  rewrite script_cons. cbn [snd].
  apply not_elem_of_cons in Hno as [Ha Hno]. apply IH; [done|].
  rewrite perform_mode. by destruct a.
Qed.

(** C10. A freshly constructed engine has emission policy [changed] and
    detection strategy [undefined], and the policy is still [changed]
    after any sequence of calls and runtime events that does not call
    [all()]: the first detection pass runs with changed-only semantics
    unless the caller selected [all]. *)
Theorem fresh_engine_defaults (h : gmap oid (gmap string slot)) :
  mode (create h) = ModeChanged ∧ type (create h) = TypeUndefined ∧
  ∀ acts, All ∉ acts → mode (script acts (create h)).2 = ModeChanged.
Proof.
  split; [done|]. split; [done|].
  intros acts Hno. by apply script_mode_changed.
Qed.

Lemma fresh_engine_defaults_witness :
  (All ∉ [Watch 1 (One "name" None); Clock (VNum 1000); Tick]) ∧
  mode (script [Watch 1 (One "name" None); Clock (VNum 1000); Tick] (create two_objects)).2
    = ModeChanged.
Proof.
  assert (Hno : All ∉ [Watch 1 (One "name" None); Clock (VNum 1000); Tick]).
  { rewrite !not_elem_of_cons. repeat split; try discriminate. apply not_elem_of_nil. }
  split; [exact Hno|].
  exact (proj2 (proj2 (fresh_engine_defaults two_objects)) _ Hno).
Defined.

(** ** The poll detector publishes simple notifications only *)

Lemma check_emitted s :
  ∃ updates,
    (check_filter (heap s) (mode s) (entries s) (cells s) ∅).2 = updates ∧
    emitted (check s) = if bool_decide (updates ≠ ∅) then [Change updates] else [].
Proof.
  unfold check. msimpl.
  destruct (check_filter _ _ _ _ _) as [[kept cs] updates]. cbn [snd].
  exists updates. split; [done|]. msimpl.
  by destruct (bool_decide (updates ≠ ∅)).
Qed.

Lemma check_outcome s : outcome (check s) = Normal tt.
Proof.
  unfold check. msimpl.
  destruct (check_filter _ _ _ _ _) as [[kept cs] updates]. msimpl.
  by destruct (bool_decide (updates ≠ ∅)).
Qed.

(** C8. Whatever the emission policy and the state, a poll tick publishes
    at most one notification, and it is a simple [change]: no
    [change:full] notification ever comes from the poll detector. *)
Theorem poll_never_publishes_full (s : state) :
  (emitted (check s) = [] ∨ ∃ updates, emitted (check s) = [Change updates]) ∧
  (emitted (tick s) = [] ∨ ∃ updates, emitted (tick s) = [Change updates]).
Proof.
  assert (Hcheck : emitted (check s) = [] ∨ ∃ updates, emitted (check s) = [Change updates]).
  { destruct (check_emitted s) as (updates & _ & ->).
    destruct (bool_decide (updates ≠ ∅)); eauto. }
  split; [done|].
  unfold tick. msimpl. destruct (intervalId s); [done|by left].
Qed.

(** ** The invalid-mode guard *)

Lemma watch_each_outcome instance props s :
  outcome (watch_each instance props s) = Normal tt ∨
  ∃ p, outcome (watch_each instance props s) = Thrown (AttributeNotFoundError p).
Proof.
  revert s. induction props as [|[p k] props IH]; intros s; [by left|].
  cbn [watch_each]. destruct (has_prop s instance p) eqn:Hp.
  - rewrite (bind_Normal _ _ _ _ _ _ (addEntry_present _ _ _ _ Hp)). apply IH.
  - rewrite (bind_Thrown _ _ _ _ _ _ (addEntry_missing _ _ _ _ Hp)). eauto.
Qed.

Lemma perform_outcome a s :
  outcome (perform a s) = Normal tt ∨
  (∃ p, outcome (perform a s) = Thrown (AttributeNotFoundError p)) ∨
  outcome (perform a s) = Thrown InvalidRegistrationArgumentsError ∨
  outcome (perform a s) = Thrown IllegalStrategyTransitionError ∨
  (∃ p, outcome (perform a s) = Thrown (CannotRedefinePropertyError p)).
Proof.
  destruct a as [instance arg|ms| | | |instance| |o p v|o|o]; cbn [perform];
    try (by left).
  - destruct arg as [p k|props|]; cbn [watch].
    + destruct (has_prop s instance p) eqn:Hp.
      * rewrite (addEntry_present _ _ _ _ Hp). by left.
      * rewrite (addEntry_missing _ _ _ _ Hp). right; left; eauto.
    + destruct (watch_each_outcome instance props s) as [->|[p ->]]; eauto.
    + right; right; by left.
  - unfold clock. msimpl. case_bool_decide; [by right; right; right; left|]. msimpl.
    destruct (clear_fields (with_type TypeClock s)) as (s1 & H1 & _).
    rewrite (bind_Normal _ _ _ _ _ _ H1). by left.
  - destruct (realTime_run s) as (out & s' & -> & [->|[p ->]] & _); [by left|].
    right; right; right; right. eauto.
  - unfold tick. msimpl. destruct (intervalId s); [|by left].
    left. apply check_outcome.
  - destruct (assign_frame o p v s) as (evs & s' & -> & _). by left.
  - unfold finalize. msimpl.
    destruct (forEach_cleanup_run (map snd (List.filter (λ r : oid * string, bool_decide (r.1 = o)) (registry s)))
      (with_registry (List.filter (λ r : oid * string, negb (bool_decide (r.1 = o)))) s))
      as (s' & -> & _).
    by left.
Qed.

(** C9. [buildFullAllPayload] throws its invalid-mode error exactly when
    the emission policy is not [all]; the intercepted setter, its only
    caller, always completes normally, and no public call or runtime event
    ever ends in the invalid-mode error: the guard is never hit. *)
Theorem invalid_mode_guard_unreachable (s : state) :
  (outcome (buildFullAllPayload s) = Thrown InvalidModeOperationError ↔ mode s ≠ ModeAll) ∧
  (∀ o p value i v, outcome (set o p value i v s) = Normal tt) ∧
  (∀ a, outcome (perform a s) ≠ Thrown InvalidModeOperationError).
Proof.
  split; [|split].
  - destruct (buildFullAllPayload_run s) as [[Hm [payload ->]]|[Hm ->]]; cbn [outcome].
    + split; [discriminate|done].
    + done.
  - intros o p value i v.
    by destruct (set_frame o p value i v s) as (evs & s' & -> & _).
  - intros a.
    destruct (perform_outcome a s) as [->|[[p ->]|[->|[->|[p ->]]]]]; discriminate.
Qed.

(** ** Unregistration and collection *)

Lemma elem_of_List_filter {A} (f : A → bool) (l : list A) (x : A) :
  x ∈ List.filter f l ↔ x ∈ l ∧ f x = true.
Proof. rewrite !list_elem_of_In. apply filter_In. Qed.

Lemma List_filter_all {A} (f : A → bool) (l : list A) :
  (∀ x, x ∈ l → f x = true) → List.filter f l = l.
Proof.
  induction l as [|x l IH]; intros H; [done|]. cbn [List.filter].
  rewrite (H x) by apply list_elem_of_here. f_equal. apply IH.
  intros y Hy. apply H. by apply list_elem_of_further.
Qed.

(** C7, as the code has it. [unwatch(object)] keeps, in their order,
    exactly the entries whose referent can still be dereferenced and is
    not [object]: every entry whose referent is [object] goes, and so does
    every entry whose referent has been collected.  Nothing else in the
    state changes, and the call is a no-op when every entry has a live
    referent other than [object]. *)
Theorem unwatch_keeps_live_others (instance : oid) (s : state) :
  let s' := final (unwatch instance s) in
  unwatch instance s = Run (Normal tt) [] (with_entries (λ _, entries s') s) ∧
  (∀ i, i ∈ entries s' ↔
        i ∈ entries s ∧
        ∃ e, cells s !! i = Some e ∧ is_Some (deref s (instanceRef e)) ∧
             instanceRef e ≠ instance) ∧
  sublist (entries s') (entries s) ∧
  ((∀ i, i ∈ entries s →
         ∃ e, cells s !! i = Some e ∧ is_Some (deref s (instanceRef e)) ∧
              instanceRef e ≠ instance) →
   unwatch instance s = Run (Normal tt) [] s).
Proof.
  set (keep := λ i : nat,
    match cells s !! i with
    | None => false
    | Some e =>
        match deref s (instanceRef e) with
        | Some _ => negb (bool_decide (instanceRef e = instance))
        | None => false
        end
    end).
  assert (Hkeep : ∀ i, keep i = true ↔
    ∃ e, cells s !! i = Some e ∧ is_Some (deref s (instanceRef e)) ∧ instanceRef e ≠ instance).
  { intros i. unfold keep. destruct (cells s !! i) as [e|].
    - destruct (deref s (instanceRef e)) as [x|] eqn:Hd.
      + rewrite negb_true_iff, bool_decide_eq_false. split.
        * intros Hne. exists e. by rewrite Hd.
        * by intros (e' & [= <-] & _ & Hne).
      + split; [done|]. intros (e' & [= <-] & Hs & _). rewrite Hd in Hs. by destruct Hs.
    - split; [done|]. by intros (e' & ? & _). }
  assert (Hrun : unwatch instance s = Run (Normal tt) [] (with_entries (List.filter keep) s)) by done.
  cbn zeta. rewrite Hrun. cbn [final]. split; [done|]. split; [|split].
  - intros i. cbn [with_entries entries]. by rewrite elem_of_List_filter, Hkeep.
  - cbn [with_entries entries]. induction (entries s) as [|i l IH]; [done|].
    cbn [List.filter]. destruct (keep i); by constructor.
  - intros Hall. f_equal. unfold with_entries. rewrite List_filter_all; [by destruct s|].
    intros i Hi. by apply Hkeep, Hall.
Qed.

Lemma unwatch_keeps_live_others_witness :
  (∀ i, i ∈ entries polling →
        ∃ e, cells polling !! i = Some e ∧ is_Some (deref polling (instanceRef e)) ∧
             instanceRef e ≠ 3) ∧
  unwatch 3 polling = Run (Normal tt) [] polling.
Proof.
  assert (H : ∀ i, i ∈ entries polling →
        ∃ e, cells polling !! i = Some e ∧ is_Some (deref polling (instanceRef e)) ∧
             instanceRef e ≠ 3).
  { intros i Hi.
    assert (He : entries polling = [0; 1]) by (vm_compute; reflexivity).
    rewrite He in Hi.
    apply elem_of_cons in Hi as [->|Hi]; [|apply elem_of_cons in Hi as [->|Hi]].
    - eexists. split; [vm_compute; reflexivity|]. split; [|vm_compute; discriminate].
      vm_compute. eexists. reflexivity.
    - eexists. split; [vm_compute; reflexivity|]. split; [|vm_compute; discriminate].
      vm_compute. eexists. reflexivity.
    - by apply elem_of_nil in Hi. }
  split; [exact H|].
  exact (proj2 (proj2 (proj2 (unwatch_keeps_live_others 3 polling))) H).
Defined.

(** C7 as stated fails. The engine watches object 1 only, the collector
    has reclaimed it, and [unwatch] is called with object 2, the referent
    of no entry: the call is not a no-op, it drops the entry of object 1. *)
Lemma unwatch_drops_collected_entries :
  entries (stale_entry []) = [0] ∧
  instanceRef <$> cells (stale_entry []) !! 0 = Some 1 ∧
  entries (final (unwatch 2 (stale_entry []))) = [].
Proof. vm_compute. done. Qed.

Lemma cleanup_spec k s :
  ∃ s', cleanup k s = Run (Normal tt) [] s' ∧
    s' = with_entries (λ _, entries s') s ∧
    ∀ i, i ∈ entries s' ↔ i ∈ entries s ∧ ∃ e, cells s !! i = Some e ∧ key e ≠ k.
Proof.
  eexists. split; [reflexivity|]. split; [done|].
  intros i. cbn [with_entries entries]. rewrite elem_of_List_filter.
  destruct (cells s !! i) as [e|].
  - rewrite negb_true_iff, bool_decide_eq_false. split.
    + intros [Hi Hk]. eauto.
    + by intros [Hi (e' & [= <-] & Hk)].
  - split; [by intros [_ ?]|]. by intros [_ (e' & ? & _)].
Qed.

Lemma forEach_cleanup_spec ks s :
  ∃ s', forEach cleanup ks s = Run (Normal tt) [] s' ∧
    s' = with_entries (λ _, entries s') s ∧
    ∀ i, i ∈ entries s' ↔
         i ∈ entries s ∧ ∀ k, k ∈ ks → ∃ e, cells s !! i = Some e ∧ key e ≠ k.
Proof.
  revert s. induction ks as [|k ks IH]; intros s.
  - exists s. split; [done|]. split; [by destruct s|].
    intros i. split; [|by intros [? _]]. intros Hi. split; [done|].
    intros k Hk. by apply elem_of_nil in Hk.
  - rewrite forEach_cons.
    destruct (cleanup_spec k s) as (s1 & Hrun1 & Hs1 & Hin1).
    rewrite (bind_Normal _ _ _ _ _ _ Hrun1).
    destruct (IH s1) as (s2 & -> & Hs2 & Hin2). cbn [outcome emitted final app].
    exists s2. split; [done|].
    assert (Hc : cells s1 = cells s) by (by rewrite Hs1).
    split; [rewrite Hs2, Hs1; by destruct s|].
    intros i. rewrite Hin2, Hin1, Hc. split.
    + intros [[Hi He] Hks]. split; [done|]. intros k' Hk'.
      apply elem_of_cons in Hk' as [->|Hk']; eauto.
    + intros [Hi Hks]. split; [split; [done|]|].
      * apply Hks, list_elem_of_here.
      * intros k' Hk'. by apply Hks, list_elem_of_further.
Qed.

(** What the collection of [o] does to the array: an entry survives
    exactly when its key is none of the keys [o] was registered with,
    whichever object the entry itself watches. *)
Lemma finalize_spec o s :
  ∃ s', finalize o s = Run (Normal tt) [] s' ∧ cells s' = cells s ∧ heap s' = heap s ∧
    ∀ i, i ∈ entries s' ↔
         i ∈ entries s ∧
         ∀ k, (o, k) ∈ registry s → ∃ e, cells s !! i = Some e ∧ key e ≠ k.
Proof.
  unfold finalize. msimpl.
  set (s0 := with_registry _ s). set (ks := map snd _).
  destruct (forEach_cleanup_spec ks s0) as (s' & -> & Hs' & Hin).
  exists s'. split; [done|]. split; [by rewrite Hs'|]. split; [by rewrite Hs'|].
  intros i. rewrite Hin. cbn [s0 with_registry entries cells].
  assert (Hks : ∀ k, k ∈ ks ↔ (o, k) ∈ registry s).
  { intros k. unfold ks. rewrite !list_elem_of_In, in_map_iff. split.
    - intros ([o' k'] & <- & Hf). apply filter_In in Hf as [Hf Ho].
      cbn [fst snd] in *. by apply bool_decide_eq_true in Ho as ->.
    - intros Hr. exists (o, k). split; [done|]. apply filter_In. split; [done|].
      by apply bool_decide_eq_true. }
  split; intros [Hi H]; (split; [done|]); intros k Hk; by apply H, Hks.
Qed.

(** X18.  In a well-formed state, once the finalization callbacks of a
    collected object [o] have run, no entry whose referent is [o] is left
    in the array. *)
Lemma finalize_removes_own_entries o s :
  wf s →
  ∀ i e, i ∈ entries (final (finalize o s)) → cells s !! i = Some e → instanceRef e ≠ o.
Proof.
  intros Hwf i e Hi He Ho.
  destruct (finalize_spec o s) as (s' & Hrun & _ & _ & Hin).
  rewrite Hrun in Hi. cbn [final] in Hi. apply Hin in Hi as [Hi Hk].
  pose proof (wf_registered s Hwf i e Hi He) as Hreg. rewrite Ho in Hreg.
  destruct (Hk _ Hreg) as (e' & He' & Hne). congruence.
Qed.

(** C2. The finalization callback filters by key, not by referent.
    Objects 1 and 2 are both watched under the key ["name"]; object 1 is
    collected and its callback runs: the entry of object 2, which is
    still alive, is removed with it. *)
Theorem finalization_removes_by_key :
  entries same_key = [0; 1] ∧
  instanceRef <$> cells same_key !! 1 = Some 2 ∧
  is_Some (deref (script [Reclaim 1; Finalize 1] same_key).2 2) ∧
  entries (script [Reclaim 1; Finalize 1] same_key).2 = [].
Proof. vm_compute. repeat split; try done. by eexists. Qed.

(** ** The poll detector and the entry array *)

Lemma same_shape_lookup cs cs' i :
  same_shape cs cs' →
  set_lastValue VUndefined <$> cs !! i = set_lastValue VUndefined <$> cs' !! i.
Proof. intros H. rewrite <- !list_lookup_fmap. unfold same_shape in H. by rewrite H. Qed.

Lemma same_shape_Some cs cs' i e :
  same_shape cs cs' → cs !! i = Some e →
  ∃ e', cs' !! i = Some e' ∧ instanceRef e' = instanceRef e ∧ key e' = key e.
Proof.
  intros H He. apply (same_shape_lookup _ _ i) in H. rewrite He in H.
  destruct (cs' !! i) as [e'|]; [|done]. exists e'. split; [done|].
  cbn in H. by injection H as -> _ ->.
Qed.

Lemma same_shape_insert cs i e v :
  cs !! i = Some e → same_shape (<[i := set_lastValue v e]> cs) cs.
Proof.
  intros He. unfold same_shape. apply list_eq. intros j. rewrite !list_lookup_fmap.
  destruct (decide (i = j)) as [->|Hne].
  - rewrite list_lookup_insert_eq by (by eapply lookup_lt_Some). by rewrite He.
  - by rewrite list_lookup_insert_ne.
Qed.

Lemma same_shape_trans cs1 cs2 cs3 :
  same_shape cs1 cs2 → same_shape cs2 cs3 → same_shape cs1 cs3.
Proof. unfold same_shape. congruence. Qed.

Lemma live_in_shape h cs cs' i : same_shape cs cs' → live_in h cs i = live_in h cs' i.
Proof.
  intros H. apply (same_shape_lookup _ _ i) in H. unfold live_in.
  destruct (cs !! i) as [e|], (cs' !! i) as [e'|]; try done.
  cbn in H. by injection H as ->.
Qed.

Lemma check_filter_kept h m es cs updates :
  (check_filter h m es cs updates).1.1 = List.filter (live_in h cs) es ∧
  same_shape (check_filter h m es cs updates).1.2 cs.
Proof.
  revert cs updates. induction es as [|i es IH]; intros cs updates; [done|].
  cbn [check_filter List.filter]. unfold live_in at 1.
  destruct (cs !! i) as [e|] eqn:He; [|apply IH].
  destruct (h !! instanceRef e) as [instance|] eqn:Hh;
    [|rewrite (bool_decide_eq_false_2 (is_Some _)) by (by intros [??]); apply IH].
  rewrite (bool_decide_eq_true_2 (is_Some _)) by (by eexists).
  set (current := get_prop instance (prop e)).
  set (cs1 := if strict_neq current (lastValue e) then _ else cs).
  set (updates1 := if _ || _ then _ else updates).
  assert (Hshape : same_shape cs1 cs).
  { unfold cs1. destruct (strict_neq _ _); [by apply same_shape_insert|done]. }
  destruct (IH cs1 updates1) as [Hkept Hcs].
  destruct (check_filter h m es cs1 updates1) as [[kept cs2] updates2].
  cbn [fst snd] in *. split.
  - rewrite Hkept. f_equal. apply filter_ext. intros j. by apply live_in_shape.
  - by eapply same_shape_trans.
Qed.

Lemma check_run s :
  check s =
  Run (Normal tt)
    (if bool_decide ((check_filter (heap s) (mode s) (entries s) (cells s) ∅).2 ≠ ∅)
     then [Change (check_filter (heap s) (mode s) (entries s) (cells s) ∅).2] else [])
    (mkState (heap s) (check_filter (heap s) (mode s) (entries s) (cells s) ∅).1.2
       (check_filter (heap s) (mode s) (entries s) (cells s) ∅).1.1
       (mode s) (type s) (intervalId s) (registry s)).
Proof.
  unfold check. msimpl.
  destruct (check_filter _ _ _ _ _) as [[kept cs] updates]. msimpl. cbn [fst snd].
  by destruct (bool_decide (updates ≠ ∅)).
Qed.

(** C6, as the code has it. A detection pass never adds an entry and
    changes existing entries in their [lastValue] field only.  An
    intercepted write leaves the array of entries as it is.  A poll tick
    keeps, in their order, exactly the entries whose referent can still be
    dereferenced: the entries of collected objects are removed by the poll
    detector itself. *)
Theorem detection_pass_entries (s : state) :
  (entries (final (check s)) = List.filter (live_entry s) (entries s) ∧
   same_shape (cells (final (check s))) (cells s)) ∧
  (entries (final (tick s)) =
     (if intervalId s is Some _ then List.filter (live_entry s) (entries s) else entries s) ∧
   same_shape (cells (final (tick s))) (cells s)) ∧
  (∀ o p v, entries (final (assign o p v s)) = entries s ∧
            same_shape (cells (final (assign o p v s))) (cells s)).
Proof.
  assert (Hcheck : entries (final (check s)) = List.filter (live_entry s) (entries s) ∧
                   same_shape (cells (final (check s))) (cells s)).
  { rewrite check_run. cbn [final entries cells]. apply check_filter_kept. }
  split; [done|]. split.
  - unfold tick. msimpl. by destruct (intervalId s).
  - intros o p v. by destruct (assign_frame o p v s) as (evs & s' & -> & _ & ? & _ & ? & _).
Qed.

(** C6 as stated fails. The engine polls object 1, the collector has
    reclaimed it, and the timer fires: the tick removes the entry. *)
Lemma poll_tick_removes_collected_entries :
  entries (stale_entry [Clock (VNum 1000)]) = [0] ∧
  entries (final (tick (stale_entry [Clock (VNum 1000)]))) = [].
Proof. vm_compute. done. Qed.

(** ** Records filled by assignment *)

Lemma assign_key_proto {V} (v : V) (record : gmap string V) :
  assign_key "__proto__" v record = record.
Proof. done. Qed.

Lemma assign_key_ordinary {V} k (v : V) (record : gmap string V) :
  k ≠ "__proto__"%string → assign_key k v record = <[k := v]> record.
Proof. intros Hk. unfold assign_key. by rewrite bool_decide_eq_false_2. Qed.

Lemma assign_key_lookup_ne {V} k k' (v : V) (record : gmap string V) :
  k ≠ k' → assign_key k v record !! k' = record !! k'.
Proof.
  intros Hk. unfold assign_key. case_bool_decide; [done|]. by apply lookup_insert_ne.
Qed.

Lemma assign_key_lookup_eq {V} k (v : V) (record : gmap string V) :
  k ≠ "__proto__"%string → assign_key k v record !! k = Some v.
Proof. intros Hk. rewrite assign_key_ordinary by done. apply lookup_insert_eq. Qed.

Lemma assign_key_is_Some {V} k k' (v : V) (record : gmap string V) :
  is_Some (assign_key k v record !! k') ↔
  (k = k' ∧ k ≠ "__proto__"%string) ∨ is_Some (record !! k').
Proof.
  unfold assign_key. case_bool_decide as Hk.
  - split; [by right|]. by intros [[_ ?]|?].
  - rewrite lookup_insert_is_Some. split.
    + intros [<-|[_ ?]]; [by left|by right].
    + intros [[<- _]|?]; [by left|]. destruct (decide (k = k')); [by left|by right].
Qed.

(** ** The payload of a poll tick *)

Lemma foldl_report_ext h m cs cs' es u :
  (∀ i, i ∈ es → cs !! i = cs' !! i) →
  foldl (report h m cs) u es = foldl (report h m cs') u es.
Proof.
  revert u. induction es as [|i es IH]; intros u H; [done|].
  cbn [foldl]. rewrite IH by (intros j Hj; by apply H, list_elem_of_further).
  unfold report. by rewrite (H i) by apply list_elem_of_here.
Qed.

Lemma check_filter_spec h m es cs updates :
  NoDup es →
  (∀ i, (check_filter h m es cs updates).1.2 !! i =
        if decide (i ∈ es) then refreshed h <$> cs !! i else cs !! i) ∧
  (check_filter h m es cs updates).2 = foldl (report h m cs) updates es.
Proof.
  revert cs updates. induction es as [|i es IH]; intros cs updates Hnd.
  { split; [|done]. intros i. by rewrite decide_False by apply not_elem_of_nil. }
  apply NoDup_cons in Hnd as [Hi Hnd].
  cbn [check_filter foldl]. unfold report at 2.
  destruct (cs !! i) as [e|] eqn:He.
  - unfold may_report, current_in.
    destruct (h !! instanceRef e) as [instance|] eqn:Hh.
    + set (cur := get_prop instance (prop e)).
      set (cs1 := if strict_neq cur (lastValue e) then _ else cs).
      set (updates1 := if _ || _ then _ else updates).
      assert (Hcs1 : ∀ j, cs1 !! j = if decide (j = i) then Some (refreshed h e) else cs !! j).
      { intros j. unfold cs1, refreshed. rewrite Hh. fold cur.
        destruct (strict_neq cur (lastValue e)).
        - destruct (decide (j = i)) as [->|].
          + rewrite list_lookup_insert_eq; [done|by eapply lookup_lt_Some].
          + by rewrite list_lookup_insert_ne.
        - destruct (decide (j = i)) as [->|]; done. }
      destruct (IH cs1 updates1 Hnd) as [Hcells Hupd].
      destruct (check_filter h m es cs1 updates1) as [[kept cs2] updates2].
      cbn [fst snd] in *. split.
      * intros j. rewrite Hcells, Hcs1.
        destruct (decide (j = i)) as [->|Hne].
        -- rewrite decide_False by done. rewrite decide_True by apply list_elem_of_here.
           by rewrite He.
        -- destruct (decide (j ∈ es)).
           ++ rewrite decide_True by (by apply list_elem_of_further). done.
           ++ rewrite decide_False; [done|]. rewrite elem_of_cons. by intros [?|?].
      * rewrite Hupd. apply foldl_report_ext. intros j Hj. rewrite Hcs1.
        rewrite decide_False; [done|]. by intros ->.
    + destruct (IH cs updates Hnd) as [Hcells Hupd]. split; [|done].
      intros j. rewrite Hcells. destruct (decide (j = i)) as [->|Hne].
      * rewrite decide_False by done. rewrite decide_True by apply list_elem_of_here.
        rewrite He. cbn. unfold refreshed. by rewrite Hh.
      * destruct (decide (j ∈ es)).
        -- by rewrite decide_True by (by apply list_elem_of_further).
        -- rewrite decide_False; [done|]. rewrite elem_of_cons. by intros [?|?].
  - destruct (IH cs updates Hnd) as [Hcells Hupd]. split; [|done].
    intros j. rewrite Hcells. destruct (decide (j = i)) as [->|Hne].
    + rewrite decide_False by done. rewrite decide_True by apply list_elem_of_here.
      by rewrite He.
    + destruct (decide (j ∈ es)).
      * by rewrite decide_True by (by apply list_elem_of_further).
      * rewrite decide_False; [done|]. rewrite elem_of_cons. by intros [?|?].
Qed.

Lemma foldl_report_other h m cs es u k :
  (∀ i e, i ∈ es → cs !! i = Some e → may_report h m e = true → key e ≠ k) →
  foldl (report h m cs) u es !! k = u !! k.
Proof.
  revert u. induction es as [|i es IH]; intros u H; [done|].
  cbn [foldl]. rewrite IH by (intros j e Hj; by apply H, list_elem_of_further).
  unfold report. destruct (cs !! i) as [e|] eqn:He; [|done].
  destruct (may_report h m e) eqn:Hr; [|done].
  apply assign_key_lookup_ne. by apply (H i e); [apply list_elem_of_here| |].
Qed.

(** The own keys of the record a pass fills: the keys, other than
    [__proto__], of the entries it reports. *)
Lemma foldl_report_is_Some h m cs es u k :
  is_Some (foldl (report h m cs) u es !! k) ↔
  is_Some (u !! k) ∨
  (k ≠ "__proto__"%string ∧
   ∃ i e, i ∈ es ∧ cs !! i = Some e ∧ key e = k ∧ may_report h m e = true).
Proof.
  revert u. induction es as [|i es IH]; intros u.
  { cbn [foldl]. split; [by left|]. intros [?|(_ & i & e & Hi & _)]; [done|].
    by apply elem_of_nil in Hi. }
  cbn [foldl]. rewrite IH. unfold report at 1.
  assert (Hlater :
    (k ≠ "__proto__"%string ∧
     ∃ j e, j ∈ es ∧ cs !! j = Some e ∧ key e = k ∧ may_report h m e = true) →
    k ≠ "__proto__"%string ∧
    ∃ j e, j ∈ i :: es ∧ cs !! j = Some e ∧ key e = k ∧ may_report h m e = true).
  { intros (Hk & j & e & Hj & ?). split; [done|].
    exists j, e. split; [by apply list_elem_of_further|done]. }
  destruct (cs !! i) as [e|] eqn:He; [destruct (may_report h m e) eqn:Hr|].
  - rewrite assign_key_is_Some. split.
    + intros [[[<- Hp]|Hu]|H]; [right|by left|by right; apply Hlater].
      split; [done|]. exists i, e. split; [apply list_elem_of_here|done].
    + intros [Hu|(Hp & j & e' & Hj & He' & Hk & Hr')]; [by left; right|].
      apply elem_of_cons in Hj as [->|Hj]; [|right; split; [done|]; by exists j, e'].
      left; left. rewrite He in He'. injection He' as ->. by subst k.
  - split.
    + intros [Hu|H]; [by left|by right; apply Hlater].
    + intros [Hu|(Hp & j & e' & Hj & He' & Hk & Hr')]; [by left|].
      apply elem_of_cons in Hj as [->|Hj]; [congruence|]. right. split; [done|]. by exists j, e'.
  - split.
    + intros [Hu|H]; [by left|by right; apply Hlater].
    + intros [Hu|(Hp & j & e' & Hj & He' & Hk & Hr')]; [by left|].
      apply elem_of_cons in Hj as [->|Hj]; [congruence|]. right. split; [done|]. by exists j, e'.
Qed.

Lemma foldl_report_last h m cs l1 i l2 e u :
  cs !! i = Some e → may_report h m e = true → key e ≠ "__proto__"%string →
  (∀ j e', j ∈ l2 → cs !! j = Some e' → may_report h m e' = true → key e' ≠ key e) →
  foldl (report h m cs) u (l1 ++ i :: l2) !! key e = Some (current_in h e).
Proof.
  intros He Hr Hk Hl2. rewrite foldl_app. cbn [foldl].
  rewrite foldl_report_other by done.
  unfold report. rewrite He, Hr. by apply assign_key_lookup_eq.
Qed.

Lemma may_report_reported s e :
  may_report (heap s) (mode s) e = true ↔ reported s e.
Proof.
  unfold may_report, reported, referent_alive, changed, current, current_in, deref.
  destruct (heap s !! instanceRef e) as [instance|].
  - destruct (mode s).
    + rewrite bool_decide_eq_true_2 by done. cbn [orb].
      split; [intros _; split; [by eexists|done]|done].
    + rewrite bool_decide_eq_false_2 by done. cbn [orb].
      split; [intros H; split; [by eexists|done]|by intros [_ ?]].
    + rewrite bool_decide_eq_false_2 by done. cbn [orb].
      split; [intros H; split; [by eexists|done]|by intros [_ ?]].
  - split; [done|]. by intros [[? ?] _].
Qed.

Lemma refreshed_changed s e :
  referent_alive s e → changed s e →
  refreshed (heap s) e = set_lastValue (current s e) e.
Proof.
  unfold referent_alive, changed, current, current_in, refreshed, deref.
  intros [instance ->] Hc. by rewrite Hc.
Qed.

Lemma refreshed_unchanged s e :
  ¬ (referent_alive s e ∧ changed s e) → refreshed (heap s) e = e.
Proof.
  unfold referent_alive, changed, current, current_in, refreshed, deref.
  destruct (heap s !! instanceRef e) as [instance|]; [|done].
  destruct (strict_neq _ _); [|done]. intros []. split; [by eexists|done].
Qed.

(** A firing of the armed timer is a run of [check]. *)
Lemma tick_armed s ms : intervalId s = Some ms → tick s = check s.
Proof. intros H. unfold tick. msimpl. by rewrite H. Qed.

Lemma reported_changedOnly s e :
  mode s = ModeChanged → reported s e ↔ referent_alive s e ∧ changed s e.
Proof. unfold reported. by intros ->. Qed.

Lemma reported_all s e : mode s = ModeAll → reported s e ↔ referent_alive s e.
Proof. unfold reported. intros ->. by split; [intros [? _]|]. Qed.

(** X22.  A poll tick ([check]) builds one payload [updates] and
    publishes one [change] notification carrying it if and only if it is
    non-empty.  Every key of [updates] is the key of a reported entry:
    under [changed] an entry with a live referent whose attribute differs
    from the cached [lastValue], under [all] any entry with a live
    referent.  When no entry of the array is keyed [__proto__], the key of
    every reported entry is in [updates], and it maps to the current value
    of the entry's attribute unless a later reported entry has the same
    key and overwrites it.  Whatever the keys, the cached value becomes
    the current value for the entries of the array that are alive and
    changed, whose other fields stay, and every other entry stays what it
    was, under either policy. *)
Theorem poll_tick_payload (s : state) :
  NoDup (entries s) →
  ∃ updates : gmap string any,
    outcome (check s) = Normal tt ∧
    emitted (check s) = (if bool_decide (updates ≠ ∅) then [Change updates] else []) ∧
    (∀ k, is_Some (updates !! k) →
          ∃ i e, i ∈ entries s ∧ cells s !! i = Some e ∧ key e = k ∧ reported s e) ∧
    (ordinary_keys s →
     (∀ i e, i ∈ entries s → cells s !! i = Some e → reported s e →
             is_Some (updates !! key e)) ∧
     (∀ l1 i l2 e,
         entries s = l1 ++ i :: l2 → cells s !! i = Some e → reported s e →
         (∀ j e', j ∈ l2 → cells s !! j = Some e' → reported s e' → key e' ≠ key e) →
         updates !! key e = Some (current s e))) ∧
    (∀ i e,
        cells s !! i = Some e → i ∈ entries s → referent_alive s e → changed s e →
        ∃ e', cells (final (check s)) !! i = Some e' ∧
              lastValue e' = current s e ∧ instanceRef e' = instanceRef e ∧
              prop e' = prop e ∧ key e' = key e) ∧
    (∀ i e,
        cells s !! i = Some e → ¬ (i ∈ entries s ∧ referent_alive s e ∧ changed s e) →
        cells (final (check s)) !! i = Some e).
Proof.
  intros Hnd.
  destruct (check_filter_spec (heap s) (mode s) (entries s) (cells s) ∅ Hnd) as [Hcells Hupd].
  exists (check_filter (heap s) (mode s) (entries s) (cells s) ∅).2.
  rewrite check_run. cbn [outcome emitted final cells].
  split; [done|]. split; [done|]. rewrite Hupd. split; [|split; [intros Hkeys; split|split]].
  - intros k. rewrite foldl_report_is_Some, lookup_empty.
    intros [[? [=]]|(_ & i & e & Hi & He & Hk & Hr)].
    exists i, e. by rewrite <- may_report_reported.
  - intros i e Hi He Hr. rewrite foldl_report_is_Some. right. split.
    + by apply (Hkeys i e).
    + exists i, e. by rewrite may_report_reported.
  - intros l1 i l2 e Hes He Hr Hl2. rewrite Hes. apply foldl_report_last; [done| | |].
    + by apply may_report_reported.
    + apply (Hkeys i e); [|done]. rewrite Hes, elem_of_app. right. apply list_elem_of_here.
    + intros j e' Hj He' Hr'. apply (Hl2 j e'); [done|done|]. by apply may_report_reported.
  - intros i e He Hi Ha Hc. rewrite Hcells, decide_True, He by done.
    cbn. rewrite refreshed_changed by done. by eexists.
  - intros i e He Hno. rewrite Hcells, He. destruct (decide (i ∈ entries s)) as [Hi|]; [|done].
    cbn. rewrite refreshed_unchanged; [done|]. intros [Ha Hc]. by apply Hno.
Qed.

(** [ordinary_keys] can be computed. *)
Lemma ordinary_keys_check s :
  forallb (λ i, match cells s !! i with
                | Some e => negb (bool_decide (key e = "__proto__"%string))
                | None => true
                end) (entries s) = true →
  ordinary_keys s.
Proof.
  intros H i e Hi He. rewrite forallb_forall in H.
  specialize (H i (proj1 (list_elem_of_In _ _) Hi)). rewrite He in H.
  by apply negb_true_iff, bool_decide_eq_false in H.
Qed.

Lemma poll_tick_payload_witness :
  NoDup (entries (script [Assign 1 "name" (VStr "z")] polling).2) ∧
  ordinary_keys (script [Assign 1 "name" (VStr "z")] polling).2 ∧
  ∃ updates : gmap string any,
    emitted (check (script [Assign 1 "name" (VStr "z")] polling).2) = [Change updates] ∧
    updates !! "name"%string = Some (VStr "z").
Proof.
  assert (Hnd : NoDup (entries (script [Assign 1 "name" (VStr "z")] polling).2)).
  { apply (bool_decide_unpack _). vm_compute. exact I. }
  assert (Hkeys : ordinary_keys (script [Assign 1 "name" (VStr "z")] polling).2).
  { apply ordinary_keys_check. vm_compute. reflexivity. }
  split; [exact Hnd|]. split; [exact Hkeys|].
  destruct (poll_tick_payload _ Hnd) as (updates & _ & Hev & _ & Hord & _).
  destruct (Hord Hkeys) as [_ Hlast].
  assert (Hname : updates !! "name"%string = Some (VStr "z")).
  { refine (Hlast [] 0 [1] (mkEntry 1 "name" "name" (VStr "a")) _ _ _ _).
    - vm_compute. reflexivity.
    - vm_compute. reflexivity.
    - split; [vm_compute; by eexists|vm_compute; reflexivity].
    - intros j e' ->%list_elem_of_singleton He' _. vm_compute in He'.
      by injection He' as <-. }
  exists updates. split; [|exact Hname]. rewrite Hev.
  rewrite bool_decide_eq_true_2; [done|]. intros ->. by rewrite lookup_empty in Hname.
Defined.

(** C4.  The poll detector loses an entry whose display key is
    [__proto__].  Object [a = { name: "a" }] is watched under that key and
    polled; then [a.name = "z"]: the attribute differs from the cached
    value, so the claim wants it in the payload of the next tick and a
    [change] published.  The tick publishes nothing, because
    [updates["__proto__"] = "z"] creates no own property; it caches ["z"],
    so no later tick reports the change either.  The intercept detector,
    whose records are object literals with computed keys, does publish the
    same change under the same key. *)
Theorem poll_tick_loses_proto_key :
  entries proto_polled = [0] ∧
  cells proto_polled !! 0 = Some (mkEntry 1 "name" "__proto__" (VStr "a")) ∧
  mode proto_polled = ModeChanged ∧
  intervalId proto_polled = Some (VNum 1000) ∧
  read_prop proto_polled 1 "name" = VStr "z" ∧
  tick proto_polled
  = Run (Normal tt) []
      (with_cells (λ _, [mkEntry 1 "name" "__proto__" (VStr "z")]) proto_polled) ∧
  emitted (tick (final (tick proto_polled))) = [] ∧
  emitted (tick (with_mode ModeAll proto_polled)) = [] ∧
  (script [RealTime; Assign 1 "name" (VStr "z")] proto_keyed).1
  = [IntrusiveOverrideWarning;
     Change {[ "__proto__"%string := VStr "z" ]};
     ChangeFull {[ "__proto__"%string := mkFull (VStr "z") (VStr "a") ]}].
Proof. vm_compute. repeat split. Qed.

(** ** The intercept detector *)

(** C3. Under the [changed] policy, let the property [p] of object [o]
    be intercepted by the setter of entry [e], whose closure holds
    [value].  Assigning a [v] with [v !== value] completes normally and,
    before the assignment returns, publishes first the [change]
    notification [{key: v}] and then, when [v] also differs from the
    entry's [lastValue] before the write, the [change:full] notification
    [{key: {new: v, old: lastValue}}]; afterwards the entry's [lastValue]
    and the property both read [v].  Assigning a [v] that is strictly
    equal to [value] publishes nothing and changes nothing. *)
Theorem intercepted_write_changedOnly (o : oid) (p : string) (v : any) (s : state)
    (instance : gmap string slot) (value : any) (i : nat) (e : WatchedEntry) :
  mode s = ModeChanged →
  deref s o = Some instance →
  instance !! p = Some (Accessor value i) →
  cells s !! i = Some e →
  (strict_neq v value = true →
     outcome (assign o p v s) = Normal tt ∧
     emitted (assign o p v s) =
       Change {[ key e := v ]} ::
       (if strict_neq v (lastValue e)
        then [ChangeFull {[ key e := mkFull v (lastValue e) ]}] else []) ∧
     cells (final (assign o p v s)) !! i = Some (set_lastValue v e) ∧
     read_prop (final (assign o p v s)) o p = v) ∧
  (strict_neq v value = false → assign o p v s = Run (Normal tt) [] s).
Proof.
  intros Hm Ho Hp He. unfold assign. msimpl. rewrite Ho, Hp. unfold set. split.
  - intros ->. msimpl. cbn [with_heap cells mode]. rewrite He, Hm.
    rewrite (bool_decide_eq_false_2 (ModeChanged = ModeUndefined)) by done.
    rewrite !(bool_decide_eq_false_2 (ModeChanged = ModeAll)) by done.
    cbn [negb]. msimpl.
    rewrite (bool_decide_eq_true_2 ({[key e := v]} ≠ ∅)) by apply map_non_empty_singleton.
    msimpl.
    assert (Hcells : cells (with_cells (alter (set_lastValue v) i)
                       (with_heap (alter <[p:=Accessor v i]> o) s)) !! i
                     = Some (set_lastValue v e)).
    { cbn [with_cells with_heap cells]. by rewrite list_lookup_alter_eq, He. }
    assert (Hread : read_prop (with_cells (alter (set_lastValue v) i)
                       (with_heap (alter <[p:=Accessor v i]> o) s)) o p = v).
    { unfold read_prop, deref in *. cbn [with_cells with_heap heap].
      rewrite lookup_alter_eq, Ho. cbn. unfold get_prop. by rewrite lookup_insert_eq. }
    destruct (strict_neq v (lastValue e)).
    + rewrite bool_decide_eq_true_2 by apply map_non_empty_singleton. by msimpl.
    + rewrite bool_decide_eq_false_2 by (by intros []). by msimpl.
  - intros ->. done.
Qed.


Lemma intercepted_write_changedOnly_witness :
  emitted (assign 1 "name" (VStr "X") intercepting) =
    [Change {[ "n"%string := VStr "X" ]};
     ChangeFull {[ "n"%string := mkFull (VStr "X") (VStr "a") ]}] ∧
  emitted (assign 1 "name" (VStr "a") intercepting) = [].
Proof.
  assert (Hm : mode intercepting = ModeChanged) by (vm_compute; reflexivity).
  assert (Ho : deref intercepting 1 = Some {[ "name"%string := Accessor (VStr "a") 0 ]})
    by (vm_compute; reflexivity).
  assert (Hp : ({[ "name"%string := Accessor (VStr "a") 0 ]} : gmap string slot) !! "name"%string
               = Some (Accessor (VStr "a") 0)) by (vm_compute; reflexivity).
  assert (He : cells intercepting !! 0 = Some (mkEntry 1 "name" "n" (VStr "a")))
    by (vm_compute; reflexivity).
  split.
  - destruct (intercepted_write_changedOnly 1 "name" (VStr "X") intercepting _ _ _ _
                Hm Ho Hp He) as [Hdiff _].
    destruct (Hdiff ltac:(vm_compute; reflexivity)) as (_ & Hev & _). exact Hev.
  - destruct (intercepted_write_changedOnly 1 "name" (VStr "a") intercepting _ _ _ _
                Hm Ho Hp He) as [_ Hsame].
    by rewrite (Hsame ltac:(vm_compute; reflexivity)).
Defined.

(** ** Well-formedness is an invariant *)

Lemma same_shape_length cs cs' : same_shape cs cs' → length cs = length cs'.
Proof.
  intros H. apply (f_equal length) in H. by rewrite !length_fmap in H.
Qed.

Lemma sublist_List_filter {A} (f : A → bool) (l : list A) : sublist (List.filter f l) l.
Proof.
  induction l as [|x l IH]; [done|]. cbn [List.filter]. destruct (f x); by constructor.
Qed.

(** Dropping entries from the array and rewriting [lastValue]s keeps a
    state well formed. *)
Lemma wf_narrow s s' :
  heap s' = heap s → registry s' = registry s →
  sublist (entries s') (entries s) → same_shape (cells s') (cells s) →
  wf s → wf s'.
Proof.
  intros Hh Hr He Hc [Hnd Hent Hclo Hreg].
  assert (Hin : ∀ i, i ∈ entries s' → i ∈ entries s).
  { intros i. by apply sublist_subseteq. }
  pose proof (same_shape_length _ _ Hc) as Hlen.
  split.
  - by eapply sublist_NoDup.
  - intros i Hi. rewrite Hlen. by apply Hent, Hin.
  - intros o instance p v i. rewrite Hh, Hlen. apply Hclo.
  - intros i e' Hi He'. rewrite Hr.
    destruct (same_shape_Some _ _ _ _ Hc He') as (e & Hce & <- & <-).
    apply (Hreg i); [by apply Hin|done].
Qed.

Lemma wf_addEntry instance p k s : wf s → wf (final (addEntry instance p k s)).
Proof.
  intros Hwf. destruct (has_prop s instance p) eqn:Hp.
  2:{ by rewrite (addEntry_missing _ _ _ _ Hp). }
  rewrite (addEntry_present _ _ _ _ Hp). cbn [final].
  destruct Hwf as [Hnd Hent Hclo Hreg]. split; cbn [entries cells heap registry].
  - apply NoDup_app. split; [done|]. split; [|apply NoDup_singleton].
    intros i Hi ->%list_elem_of_singleton. apply Hent in Hi. lia.
  - intros i Hi. rewrite length_app. cbn [length].
    apply elem_of_app in Hi as [Hi| ->%list_elem_of_singleton]; [apply Hent in Hi|]; lia.
  - intros o obj q v i Ho Hq. rewrite length_app. pose proof (Hclo _ _ _ _ _ Ho Hq). lia.
  - intros i e Hi He. apply elem_of_app.
    apply elem_of_app in Hi as [Hi| ->%list_elem_of_singleton].
    + left. rewrite lookup_app_l in He by (by apply Hent). by apply (Hreg i).
    + right. rewrite list_lookup_middle in He by done. injection He as <-.
      apply list_elem_of_singleton. done.
Qed.

Lemma wf_watch_each instance props s : wf s → wf (final (watch_each instance props s)).
Proof.
  revert s. induction props as [|[p k] props IH]; intros s Hwf; [done|].
  cbn [watch_each]. pose proof (wf_addEntry instance p (default p k) s Hwf) as H1.
  unfold bind. destruct (addEntry instance p (default p k) s) as [[[]|e] evs s1];
    cbn [outcome emitted final] in *; [|done].
  by apply IH.
Qed.

(** Rewriting the heap without creating closures for unallocated entries
    keeps a state well formed. *)
Lemma wf_heap s s' :
  cells s' = cells s → entries s' = entries s → registry s' = registry s →
  (∀ o instance p v i,
     heap s' !! o = Some instance → instance !! p = Some (Accessor v i) →
     i < length (cells s)) →
  wf s → wf s'.
Proof.
  intros Hc He Hr Hclo' [Hnd Hent Hclo Hreg].
  split; rewrite ?Hc, ?He, ?Hr; try done.
Qed.

Lemma wf_selector s s' :
  heap s' = heap s → cells s' = cells s → entries s' = entries s →
  registry s' = registry s → wf s → wf s'.
Proof.
  intros Hh Hc He Hr Hwf. apply (wf_heap s); try done.
  rewrite Hh. apply (wf_closures s Hwf).
Qed.

Lemma wf_intercept i s : wf s → i < length (cells s) → wf (final (intercept i s)).
Proof.
  intros Hwf Hi. unfold intercept. msimpl.
  destruct (cells s !! i) as [e|]; [|done].
  destruct (deref s (instanceRef e)) as [instance|] eqn:Hd; [|done].
  assert (Hwf1 : wf (with_heap <[instanceRef e:=<[prop e:=Accessor (get_prop instance (prop e)) i]> instance]> s)).
  { apply (wf_heap s); try done.
    intros o' instance' q v' j. cbn [with_heap heap]. rewrite lookup_insert.
    case_decide as Hoo; [subst o'|by apply (wf_closures s Hwf)]. intros [= <-].
    rewrite lookup_insert.
    case_decide as Hq; [by intros [= _ <-]|]. by apply (wf_closures s Hwf _ _ _ _ _ Hd). }
  by destruct (instance !! prop e) as [[w|v0 j0|w]|].
Qed.

Lemma wf_forEach_intercept l s :
  wf s → (∀ i, i ∈ l → i < length (cells s)) → wf (final (forEach intercept l s)).
Proof.
  revert s. induction l as [|i l IH]; intros s Hwf Hl; [done|].
  rewrite forEach_cons.
  pose proof (wf_intercept i s Hwf (Hl i ltac:(apply list_elem_of_here))) as Hwf1.
  destruct (intercept_run i s) as (out & s1 & Hrun & [->|[p ->]] & _ & Hc & _);
    rewrite Hrun in Hwf1; cbn [final] in Hwf1.
  - rewrite (bind_Normal _ _ _ _ _ _ Hrun). cbn [final].
    apply IH; [done|]. intros j Hj. rewrite Hc. by apply Hl, list_elem_of_further.
  - by rewrite (bind_Thrown _ _ _ _ _ _ Hrun).
Qed.

Lemma wf_check s : wf s → wf (final (check s)).
Proof.
  intros Hwf. destruct (check_filter_kept (heap s) (mode s) (entries s) (cells s) ∅) as [Hk Hc].
  apply (wf_narrow s); rewrite ?check_run; cbn [final heap registry entries cells]; try done.
  rewrite Hk. apply sublist_List_filter.
Qed.

Lemma wf_finalize o s : wf s → wf (final (finalize o s)).
Proof.
  intros Hwf.
  destruct (finalize_spec o s) as (s' & Hrun & Hc & Hh & Hin).
  pose proof Hwf as [Hnd Hent Hclo Hreg].
  assert (Hsub : sublist (entries s') (entries s) ∧
    registry s' = List.filter (λ r : oid * string, negb (bool_decide (r.1 = o))) (registry s)).
  { revert Hrun. unfold finalize. msimpl.
    set (s0 := with_registry _ s). set (ks := map snd _).
    destruct (forEach_cleanup_run ks s0) as (s1 & H1 & _ & _ & _ & Hr1).
    assert (Hsub : ∀ ks s0, sublist (entries (final (forEach cleanup ks s0))) (entries s0)).
    { clear. intros ks. induction ks as [|k ks IH]; intros s0; [done|].
      rewrite forEach_cons. unfold cleanup at 1. rewrite bind_update. etrans; [apply IH|].
      cbn [with_entries entries]. apply sublist_List_filter. }
    specialize (Hsub ks s0). rewrite H1 in *. intros [= <-]. by split. }
  destruct Hsub as [Hsub Hr]. rewrite Hrun. cbn [final].
  split.
  - by eapply sublist_NoDup.
  - intros i Hi. rewrite Hc. by apply Hent, (sublist_subseteq _ _ Hsub).
  - intros o' instance p v i. rewrite Hh, Hc. apply Hclo.
  - intros i e Hi He. rewrite Hc in He. rewrite Hr.
    apply Hin in Hi as [Hi Hk]. apply elem_of_List_filter. split; [by apply (Hreg i)|].
    cbn [fst]. rewrite negb_true_iff, bool_decide_eq_false. intros Ho.
    pose proof (Hreg i e Hi He) as Hre. rewrite Ho in Hre.
    destruct (Hk _ Hre) as (e' & He' & Hne). congruence.
Qed.

(** Every call and every runtime event keeps the state well formed. *)
Lemma wf_perform a s : wf s → wf (final (perform a s)).
Proof.
  intros Hwf.
  destruct a as [instance arg|ms| | | |instance| |o p v|o|o]; cbn [perform].
  - destruct arg as [p k|props|]; cbn [watch];
      [by apply wf_addEntry|by apply wf_watch_each|done].
  - unfold clock. msimpl. case_bool_decide; [done|]. msimpl.
    destruct (clear_fields (with_type TypeClock s)) as (s1 & H1 & _ & _ & _ & He & Hc & Hh & Hr).
    rewrite (bind_Normal _ _ _ _ _ _ H1). by apply (wf_selector s).
  - unfold realTime. msimpl.
    destruct (clear_fields (with_type TypeRealTime s)) as (s1 & H1 & _ & _ & _ & He & Hc & Hh & Hr).
    rewrite (bind_Normal _ _ _ _ _ _ H1). msimpl. cbn [final].
    assert (Hwf1 : wf s1) by (by apply (wf_selector s)).
    apply wf_forEach_intercept; [done|]. apply (wf_entries s1 Hwf1).
  - by apply (wf_selector s).
  - by apply (wf_selector s).
  - apply (wf_narrow s); try done. apply sublist_List_filter.
  - unfold tick. msimpl. destruct (intervalId s); [by apply wf_check|done].
  - destruct (assign_frame o p v s) as (evs & s' & -> & _ & He & Hr & Hc & Hclo).
    cbn [final]. destruct Hwf as [Hnd Hent Hclo0 Hreg].
    pose proof (same_shape_length _ _ Hc) as Hlen. split; rewrite ?He, ?Hr, ?Hlen; try done.
    + intros o' instance' q v' j Ho' Hq.
      destruct (Hclo _ _ _ _ _ Ho' Hq) as (instance0 & v0 & Ho0 & Hq0). eauto.
    + intros i e' Hi He'.
      destruct (same_shape_Some _ _ _ _ Hc He') as (e & Hce & <- & <-). by apply (Hreg i).
  - apply (wf_heap s); try done. cbn [reclaim update final with_heap heap].
    intros o' instance q v i [_ Ho']%lookup_delete_Some. by apply (wf_closures s Hwf o').
  - by apply wf_finalize.
Qed.

Lemma wf_script acts s : wf s → wf (script acts s).2.
Proof.
  revert s. induction acts as [|a acts IH]; intros s Hwf; [done|].
  rewrite script_cons. cbn [snd]. by apply IH, wf_perform.
Qed.

(** A fresh engine next to objects that carry no setter closure. *)
Lemma wf_create h :
  (∀ o instance p v i, h !! o = Some instance → instance !! p ≠ Some (Accessor v i)) →
  wf (create h).
Proof.
  intros Hplain. split; cbn [create entries cells heap registry].
  - constructor.
  - by intros i ?%elem_of_nil.
  - intros o instance p v i Ho Hp. by destruct (Hplain o instance p v i Ho).
  - by intros i e ?%elem_of_nil.
Qed.

(** X19.  Every state an engine reaches from a fresh one, over objects
    that carry no setter closure, by any sequence of calls and runtime
    events, is well formed: the array holds no entry twice, every
    reference to an entry object (from the array or from a setter) is
    valid, and every entry of the array is registered for finalization
    under its key. *)
Lemma reachable_wf h acts :
  (∀ o instance p v i, h !! o = Some instance → instance !! p ≠ Some (Accessor v i)) →
  wf (script acts (create h)).2.
Proof. intros Hplain. by apply wf_script, wf_create. Qed.

(** ** Version 2.0.0 against version 2.1.0 *)

Lemma live_in_current h cs i :
  live_in h cs i = true →
  ∃ e instance, cs !! i = Some e ∧ h !! instanceRef e = Some instance ∧
                current_in h e = get_prop instance (prop e).
Proof.
  unfold live_in, current_in. destruct (cs !! i) as [e|]; [|done].
  intros [instance Hi]%bool_decide_eq_true. exists e, instance. by rewrite Hi.
Qed.

Lemma v2_0_check_loop_agrees h m es cs updates :
  (∀ i, i ∈ es → live_in h cs i = true) →
  check_filter h m es cs updates =
  (es, (V2_0.check_loop h m es cs updates).1, (V2_0.check_loop h m es cs updates).2).
Proof.
  revert cs updates. induction es as [|i es IH]; intros cs updates Hlive; [done|].
  destruct (live_in_current h cs i) as (e & instance & He & Hi & Hcur).
  { apply Hlive, list_elem_of_here. }
  cbn [check_filter V2_0.check_loop]. rewrite He, Hi, Hcur.
  set (cur := get_prop instance (prop e)).
  set (cs1 := if strict_neq cur (lastValue e) then _ else cs).
  set (updates1 := if _ || _ then _ else updates).
  rewrite IH; [done|].
  intros j Hj. rewrite (live_in_shape h cs1 cs).
  - by apply Hlive, list_elem_of_further.
  - unfold cs1. destruct (strict_neq _ _); [by apply same_shape_insert|done].
Qed.

(** On the states version 2.0.0 can be in, its [check] is the [check] of
    version 2.1.0. *)
Lemma v2_0_check_agrees s : all_alive s → V2_0.check s = check s.
Proof.
  intros Hlive. unfold V2_0.check, check. msimpl.
  rewrite (v2_0_check_loop_agrees _ _ _ _ _ Hlive).
  destruct (V2_0.check_loop _ _ _ _ _) as [cs updates]. cbn [fst snd]. msimpl.
  by destruct s.
Qed.

(** In version 2.0.0 a poll tick never touches the array of entries. *)
Lemma v2_0_check_keeps_entries s : entries (final (V2_0.check s)) = entries s.
Proof.
  unfold V2_0.check. msimpl.
  destruct (V2_0.check_loop _ _ _ _ _) as [cs updates]. msimpl.
  by destruct (bool_decide (updates ≠ ∅)).
Qed.

Lemma v2_0_buildAllPayload_agrees s :
  all_alive s → V2_0.buildAllPayload s = buildAllPayload s.
Proof.
  intros Hlive. unfold V2_0.buildAllPayload, buildAllPayload. msimpl.
  unfold ret. do 2 f_equal. generalize (∅ : gmap string any).
  revert Hlive. unfold all_alive. induction (entries s) as [|i es IH]; intros Hlive u; [done|].
  cbn [foldl]. rewrite IH by (intros j Hj; by apply Hlive, list_elem_of_further). f_equal.
  destruct (live_in_current _ _ i (Hlive i ltac:(apply list_elem_of_here)))
    as (e & instance & He & Hi & Hcur).
  unfold deref, current. by rewrite He, Hi, Hcur.
Qed.

Lemma v2_0_buildFullAllPayload_agrees s :
  all_alive s → V2_0.buildFullAllPayload s = buildFullAllPayload s.
Proof.
  intros Hlive. unfold V2_0.buildFullAllPayload, buildFullAllPayload. msimpl.
  destruct (negb _); [done|].
  unfold ret. do 2 f_equal. generalize (∅ : gmap string full).
  revert Hlive. unfold all_alive. induction (entries s) as [|i es IH]; intros Hlive u; [done|].
  cbn [foldl]. rewrite IH by (intros j Hj; by apply Hlive, list_elem_of_further). f_equal.
  destruct (live_in_current _ _ i (Hlive i ltac:(apply list_elem_of_here)))
    as (e & instance & He & Hi & Hcur).
  unfold deref, current. by rewrite He, Hi, Hcur.
Qed.

Lemma all_alive_alter f o s : all_alive s → all_alive (with_heap (alter f o) s).
Proof.
  intros Hlive i Hi. specialize (Hlive i Hi). revert Hlive.
  unfold live_entry, live_in. cbn [with_heap heap cells].
  destruct (cells s !! i) as [e|]; [|done]. rewrite !bool_decide_eq_true.
  intros [instance Hinst]. rewrite lookup_alter. case_decide; [subst|by eexists].
  rewrite Hinst. by eexists.
Qed.

Lemma bind_cong {A B} (m m' : M A) (k k' : A → M B) s :
  m s = m' s →
  (∀ a evs s', m' s = Run (Normal a) evs s' → k a s' = k' a s') →
  bind m k s = bind m' k' s.
Proof.
  intros Hm Hk. unfold bind. rewrite Hm.
  destruct (m' s) as [[a|e] evs s'] eqn:Hrun; cbn [outcome emitted final]; [|done].
  by rewrite (Hk a evs s').
Qed.

Lemma v2_0_set_agrees o p value i v s :
  all_alive s → V2_0.set o p value i v s = set o p value i v s.
Proof.
  intros Hlive. unfold V2_0.set, set. destruct (strict_neq v value); [|done].
  msimpl. set (s1 := with_heap _ s).
  assert (Hlive1 : all_alive s1) by (by apply all_alive_alter).
  clearbody s1. destruct (cells s1 !! i) as [e|]; [|done].
  destruct (negb _); [|done]. destruct (bool_decide (mode s1 = ModeAll)); [|done].
  rewrite !bind_assoc. apply bind_cong; [by apply v2_0_buildFullAllPayload_agrees|].
  intros fullPayload evs s2 Hrun.
  assert (s2 = s1) as ->.
  { destruct (buildFullAllPayload_run s1) as [[_ [x Hx]]|[_ Hx]]; congruence. }
  rewrite !bind_assoc. apply bind_cong; [by apply v2_0_buildAllPayload_agrees|done].
Qed.

Lemma v2_0_assign_agrees o p v s : all_alive s → V2_0.assign o p v s = assign o p v s.
Proof.
  intros Hlive. unfold V2_0.assign, assign. msimpl.
  destruct (deref s o) as [instance|]; [|done].
  destruct (instance !! p) as [[w|value i|w]|]; [done| |done|done].
  by apply v2_0_set_agrees.
Qed.

Lemma v2_0_intercept_agrees i s :
  live_entry s i = true → V2_0.intercept i s = intercept i s.
Proof.
  intros Hlive. unfold V2_0.intercept, intercept. msimpl.
  destruct (live_in_current _ _ i Hlive) as (e & instance & He & Hi & Hcur).
  unfold sealed, deref, read_prop, deref. rewrite He, Hi.
  assert (Hsame : update (with_heap (alter <[prop e:=Accessor (get_prop instance (prop e)) i]>
                                       (instanceRef e))) s
                  = update (with_heap <[instanceRef e:=
                              <[prop e:=Accessor (get_prop instance (prop e)) i]> instance]>) s).
  { unfold update, with_heap. do 2 f_equal.
    apply map_eq. intros o. rewrite lookup_alter, lookup_insert.
    case_decide; [subst o|done]. by rewrite Hi. }
  by destruct (instance !! prop e) as [[w|v0 j|w]|].
Qed.

Lemma all_alive_intercept i s : all_alive s → all_alive (final (intercept i s)).
Proof.
  intros Hlive. unfold intercept. msimpl.
  destruct (cells s !! i) as [e|]; [|done].
  destruct (deref s (instanceRef e)) as [instance|] eqn:Hd; [|done].
  assert (Hlive1 : all_alive (with_heap <[instanceRef e:=
            <[prop e:=Accessor (get_prop instance (prop e)) i]> instance]> s)).
  { intros j Hj. specialize (Hlive j Hj). revert Hlive.
    unfold live_entry, live_in. cbn [with_heap heap cells].
    destruct (cells s !! j) as [e'|]; [|done]. rewrite !bool_decide_eq_true.
    intros [instance' Hinst]. rewrite lookup_insert. case_decide; by eexists. }
  by destruct (instance !! prop e) as [[w|v0 j|w]|].
Qed.

Lemma v2_0_forEach_intercept_agrees l s :
  all_alive s → (∀ i, i ∈ l → i ∈ entries s) →
  forEach V2_0.intercept l s = forEach intercept l s.
Proof.
  revert s. induction l as [|i l IH]; intros s Hlive Hl; [done|].
  rewrite !forEach_cons. apply bind_cong.
  - apply v2_0_intercept_agrees, Hlive, Hl, list_elem_of_here.
  - intros [] evs s' Hrun.
    pose proof (all_alive_intercept i s Hlive) as Hlive'.
    destruct (intercept_run i s) as (out1 & s1 & Hrun1 & _ & _ & _ & He & _).
    rewrite Hrun in Hrun1. injection Hrun1 as _ _ <-.
    rewrite Hrun in Hlive'. apply IH; [done|].
    intros j Hj. rewrite He. by apply Hl, list_elem_of_further.
Qed.

Lemma v2_0_realTime_agrees s : all_alive s → V2_0.realTime s = realTime s.
Proof.
  intros Hlive. unfold V2_0.realTime, realTime. msimpl.
  assert (Hlive0 : all_alive (with_type TypeRealTime s)) by done.
  destruct (clear_fields (with_type TypeRealTime s)) as (s1 & H1 & _ & _ & _ & He & Hc & Hh & _).
  rewrite !(bind_Normal _ _ _ _ _ _ H1). msimpl.
  rewrite v2_0_forEach_intercept_agrees; [done| |done].
  intros i Hi. rewrite He in Hi. specialize (Hlive0 i Hi).
  unfold live_entry in *. by rewrite Hc, Hh.
Qed.

(** Registration of a missing attribute in version 2.0.0. *)
Lemma v2_0_registration_rejects_missing instance p k s :
  has_prop s instance p = false →
  V2_0.watch instance (One p k) s = Run (Thrown (AttributeNotFoundError p)) [] s.
Proof.
  intros H. cbn [V2_0.watch]. msimpl. unfold V2_0.addEntry. msimpl.
  cbn [instanceRef prop]. by rewrite H.
Qed.

(** Version 2.0.0 only ever registers instances it can reach. *)
Lemma v2_0_watch_alive instance arg s :
  all_alive s → all_alive (final (V2_0.watch instance arg s)).
Proof.
  assert (Hadd : ∀ entry s, all_alive s → all_alive (final (V2_0.addEntry entry s))).
  { clear. intros entry s Hlive. unfold V2_0.addEntry. msimpl.
    destruct (has_prop s (instanceRef entry) (prop entry)) eqn:Hp; [|done].
    cbn [negb update final]. intros i Hi. unfold live_entry, live_in.
    cbn [with_entries with_cells entries cells heap] in *.
    apply elem_of_app in Hi as [Hi| ->%list_elem_of_singleton].
    - specialize (Hlive i Hi). unfold live_entry, live_in in Hlive.
      destruct (cells s !! i) as [e|] eqn:He; [|done].
      by rewrite (lookup_app_l_Some _ _ _ _ He).
    - rewrite list_lookup_middle by done. cbn [set_lastValue instanceRef].
      unfold has_prop, deref in Hp. apply bool_decide_eq_true.
      by destruct (heap s !! instanceRef entry). }
  intros Hlive. destruct arg as [p k|props|]; cbn [V2_0.watch]; [| |done].
  - msimpl. by apply Hadd.
  - revert s Hlive. induction props as [|[p k] props IH]; intros s Hlive; [done|].
    cbn [V2_0.watch_each]. msimpl.
    pose proof (Hadd (mkEntry instance p (default p k) (read_prop s instance p)) s Hlive) as H1.
    unfold bind. destruct (V2_0.addEntry _ s) as [[[]|e] evs s1];
      cbn [outcome emitted final] in *; [|done].
    by apply IH.
Qed.

(** ** What [realTime()] installs *)

Lemma intercept_closed_form i s e instance :
  cells s !! i = Some e → heap s !! instanceRef e = Some instance →
  intercept i s =
  if sealed s (instanceRef e) (prop e)
  then Run (Thrown (CannotRedefinePropertyError (prop e))) [] s
  else Run (Normal tt) []
         (with_heap <[instanceRef e :=
            <[prop e := Accessor (get_prop instance (prop e)) i]> instance]> s).
Proof.
  intros He Hi. unfold intercept, sealed, deref. msimpl. rewrite He, Hi.
  by destruct (instance !! prop e) as [[w|v0 j|w]|].
Qed.

(** The callback throws exactly on an entry whose property cannot be
    redefined. *)
Lemma intercept_outcome i s :
  outcome (intercept i s) = Normal tt ↔
  ∀ e, cells s !! i = Some e → sealed s (instanceRef e) (prop e) = false.
Proof.
  destruct (cells s !! i) as [e|] eqn:He.
  2:{ unfold intercept. msimpl. rewrite He. by split. }
  destruct (heap s !! instanceRef e) as [instance|] eqn:Hi.
  2:{ unfold intercept, deref. msimpl. rewrite He, Hi. split; [|done].
      intros _ e' [= <-]. unfold sealed, deref. by rewrite Hi. }
  rewrite (intercept_closed_form i s e instance He Hi).
  destruct (sealed s (instanceRef e) (prop e)) eqn:Hs; cbn [outcome].
  - split; [done|]. intros H. specialize (H e eq_refl). congruence.
  - split; [|done]. by intros _ e' [= <-].
Qed.

Lemma intercept_step i s :
  let s' := final (intercept i s) in
  cells s' = cells s ∧
  (∀ o, is_Some (heap s' !! o) ↔ is_Some (heap s !! o)) ∧
  (∀ o p, read_prop s' o p = read_prop s o p ∧ sealed s' o p = sealed s o p) ∧
  (∀ o instance p v j,
     heap s !! o = Some instance → instance !! p = Some (Accessor v j) →
     ∃ instance' j', heap s' !! o = Some instance' ∧
       instance' !! p = Some (Accessor v j') ∧
       (j' = j ∨ (j' = i ∧ ∃ e, cells s !! i = Some e ∧ instanceRef e = o ∧ prop e = p))) ∧
  (outcome (intercept i s) = Normal tt →
   ∀ e, cells s !! i = Some e → is_Some (heap s !! instanceRef e) →
     ∃ instance', heap s' !! instanceRef e = Some instance' ∧
       instance' !! prop e = Some (Accessor (current s e) i)).
Proof.
  cbn zeta.
  destruct (cells s !! i) as [e|] eqn:He.
  2:{ unfold intercept. msimpl. rewrite He. cbn [ret final]. repeat split; try done.
      intros o instance p v j Ho Hp. exists instance, j. eauto. }
  destruct (heap s !! instanceRef e) as [instance|] eqn:Hi.
  2:{ unfold intercept, deref. msimpl. rewrite He, Hi. cbn [ret final]. repeat split; try done.
      - intros o instance p v j Ho Hp. exists instance, j. eauto.
      - intros _ e' [= <-] [x Hx]. congruence. }
  rewrite (intercept_closed_form i s e instance He Hi).
  destruct (sealed s (instanceRef e) (prop e)) eqn:Hs.
  { cbn [final outcome]. repeat split; try done.
    intros o instance0 p v j Ho Hp. exists instance0, j. eauto. }
  assert (Hslot : ∀ w, instance !! prop e ≠ Some (Sealed w)).
  { intros w Hw. unfold sealed, deref in Hs. by rewrite Hi, Hw in Hs. }
  cbn [outcome final with_heap cells heap]. split; [done|]. split; [|split; [|split]].
  - intros o. rewrite lookup_insert. case_decide; [subst o|done].
    rewrite Hi. split; by eexists.
  - intros o p. unfold read_prop, sealed, deref. cbn [with_heap heap].
    rewrite lookup_insert.
    case_decide; [subst o|done]. rewrite Hi. unfold get_prop. rewrite lookup_insert.
    case_decide; [subst p|done]. split; [done|].
    destruct (instance !! prop e) as [[w|v0 j|w]|] eqn:Hp; try done. by destruct (Hslot w).
  - intros o instance0 p v j Ho Hp. rewrite lookup_insert.
    case_decide as Hoo; [subst o|by exists instance0, j; eauto].
    rewrite Hi in Ho. injection Ho as <-.
    destruct (decide (prop e = p)) as [<-|Hpp].
    + exists (<[prop e:=Accessor (get_prop instance (prop e)) i]> instance), i.
      split; [done|]. rewrite lookup_insert_eq. unfold get_prop. rewrite Hp.
      split; [done|]. right. split; [done|]. by exists e.
    + exists (<[prop e:=Accessor (get_prop instance (prop e)) i]> instance), j.
      split; [done|]. rewrite lookup_insert_ne by done. split; [done|by left].
  - intros _ e' [= <-] _. eexists. rewrite lookup_insert_eq. split; [done|].
    rewrite lookup_insert_eq. unfold current, current_in. by rewrite Hi.
Qed.

Lemma current_read_prop s e : current s e = read_prop s (instanceRef e) (prop e).
Proof. done. Qed.

Lemma forEach_intercept_installs l s :
  let s' := final (forEach intercept l s) in
  cells s' = cells s ∧
  (∀ o, is_Some (heap s' !! o) ↔ is_Some (heap s !! o)) ∧
  (∀ o p, read_prop s' o p = read_prop s o p ∧ sealed s' o p = sealed s o p) ∧
  (∀ o instance p v j,
     heap s !! o = Some instance → instance !! p = Some (Accessor v j) →
     ∃ instance' j', heap s' !! o = Some instance' ∧
       instance' !! p = Some (Accessor v j') ∧
       (j' = j ∨ (j' ∈ l ∧ ∃ e, cells s !! j' = Some e ∧ instanceRef e = o ∧ prop e = p))) ∧
  (outcome (forEach intercept l s) = Normal tt →
   ∀ i e, i ∈ l → cells s !! i = Some e → is_Some (heap s !! instanceRef e) →
     intercepted_by s' l (instanceRef e) (prop e) (current s e)).
Proof.
  revert s. induction l as [|i l IH]; intros s; cbn zeta.
  { cbn [forEach ret final]. repeat split; try done.
    - intros o instance p v j Ho Hp. exists instance, j. eauto.
    - by intros _ i e ?%elem_of_nil. }
  rewrite forEach_cons.
  destruct (intercept_step i s) as (Hc1 & Hd1 & Hr1 & Ha1 & Hi1).
  destruct (intercept_run i s) as (out1 & s1 & Hrun & [->|[q ->]] & _).
  2:{ rewrite (bind_Thrown _ _ _ _ _ _ Hrun). rewrite Hrun in Hc1, Hd1, Hr1, Ha1.
      cbn [final outcome] in *. split; [done|]. split; [done|]. split; [done|].
      split; [|done]. intros o instance p v j Ho Hp.
      destruct (Ha1 _ _ _ _ _ Ho Hp) as (instance1 & j1 & Ho1 & Hp1 & Hj1).
      exists instance1, j1. split; [done|]. split; [done|].
      destruct Hj1 as [->|[-> He]]; [by left|]. right. split; [apply list_elem_of_here|done]. }
  rewrite (bind_Normal _ _ _ _ _ _ Hrun). cbn [final outcome].
  rewrite Hrun in Hc1, Hd1, Hr1, Ha1, Hi1. cbn [final outcome] in *.
  specialize (Hi1 eq_refl).
  destruct (IH s1) as (Hc & Hd & Hr & Ha & Hi).
  set (s' := final (forEach intercept l s1)) in *.
  assert (Hacc : ∀ o instance p v j,
     heap s !! o = Some instance → instance !! p = Some (Accessor v j) →
     ∃ instance' j', heap s' !! o = Some instance' ∧
       instance' !! p = Some (Accessor v j') ∧
       (j' = j ∨ (j' ∈ i :: l ∧ ∃ e, cells s !! j' = Some e ∧ instanceRef e = o ∧ prop e = p))).
  { intros o instance p v j Ho Hp.
    destruct (Ha1 _ _ _ _ _ Ho Hp) as (instance1 & j1 & Ho1 & Hp1 & Hj1).
    destruct (Ha _ _ _ _ _ Ho1 Hp1) as (instance' & j' & Ho' & Hp' & Hj').
    exists instance', j'. split; [done|]. split; [done|].
    destruct Hj' as [->|[Hin He]].
    - destruct Hj1 as [->|[-> He]]; [by left|]. right. split; [apply list_elem_of_here|done].
    - right. split; [by apply list_elem_of_further|]. by rewrite <- Hc1. }
  split; [congruence|]. split; [|split; [|split; [exact Hacc|]]].
  - intros o. by rewrite Hd, Hd1.
  - intros o p. destruct (Hr o p) as [-> ->]. apply Hr1.
  - intros Hout i0 e Hi0 He Halive. specialize (Hi Hout).
    apply elem_of_cons in Hi0 as [->|Hi0].
    + destruct (Hi1 e He Halive) as (instance1 & Ho1 & Hp1).
      destruct (Ha _ _ _ _ _ Ho1 Hp1) as (instance' & j' & Ho' & Hp' & Hj').
      destruct Hj' as [->|[Hin (e' & He' & Hre & Hpe)]].
      * exists instance', i, e. rewrite Hc, Hc1.
        repeat split; try done. apply list_elem_of_here.
      * exists instance', j', e'. rewrite Hc.
        repeat split; try done. by apply list_elem_of_further.
    + destruct (Hi i0 e Hi0) as (instance' & j' & e' & Ho' & Hp' & Hin & He' & Hre & Hpe).
      { by rewrite Hc1. }
      { by apply Hd1. }
      exists instance', j', e'. rewrite !current_read_prop in *.
      rewrite (proj1 (Hr1 _ _)) in Hp'.
      repeat split; try done. by apply list_elem_of_further.
Qed.

(** [forEach] runs to its end exactly when no entry of the array asks for
    a redefinition that is refused. *)
Lemma forEach_intercept_outcome l s :
  outcome (forEach intercept l s) = Normal tt ↔
  ∀ i e, i ∈ l → cells s !! i = Some e → sealed s (instanceRef e) (prop e) = false.
Proof.
  revert s. induction l as [|i l IH]; intros s.
  { split; [|done]. by intros _ i e ?%elem_of_nil. }
  rewrite forEach_cons.
  pose proof (intercept_outcome i s) as Hout.
  destruct (intercept_step i s) as (Hc1 & _ & Hr1 & _).
  destruct (intercept_run i s) as (out1 & s1 & Hrun & [->|[q ->]] & _);
    rewrite Hrun in Hout, Hc1, Hr1; cbn [outcome final] in *.
  - rewrite (bind_Normal _ _ _ _ _ _ Hrun). cbn [outcome]. rewrite IH, Hc1. split.
    + intros H j e Hj He. apply elem_of_cons in Hj as [->|Hj].
      * by apply Hout.
      * rewrite <- (proj2 (Hr1 _ _)). by apply (H j).
    + intros H j e Hj He. rewrite (proj2 (Hr1 _ _)). apply (H j); [|done].
      by apply list_elem_of_further.
  - rewrite (bind_Thrown _ _ _ _ _ _ Hrun). cbn [outcome]. split; [done|].
    intros H. assert (Hn : @Thrown unit (CannotRedefinePropertyError q) = Normal tt); [|done].
    apply Hout. intros e He. apply (H i); [apply list_elem_of_here|done].
Qed.

(** X6.  When [realTime()] returns normally, every watched property of a
    live object is intercepted: its setter closure holds the value the
    property had and belongs to an entry of the array watching that very
    property. *)
Lemma realTime_installs s i e :
  outcome (realTime s) = Normal tt →
  i ∈ entries s → cells s !! i = Some e → referent_alive s e →
  intercepted_by (final (realTime s)) (entries s) (instanceRef e) (prop e) (current s e).
Proof.
  intros Hout Hi He Halive. revert Hout. unfold realTime. msimpl.
  destruct (clear_fields (with_type TypeRealTime s)) as (s1 & H1 & _ & _ & _ & He1 & Hc1 & Hh1 & _).
  rewrite (bind_Normal _ _ _ _ _ _ H1). msimpl. cbn [final outcome]. intros Hout.
  cbn [with_type entries cells heap] in *.
  destruct (forEach_intercept_installs (entries s1) s1) as (_ & _ & _ & _ & Hinst).
  specialize (Hinst Hout).
  rewrite He1 in *. specialize (Hinst i e Hi). rewrite Hc1, Hh1 in Hinst.
  assert (Hcur : current s1 e = current s e) by (unfold current; by rewrite Hh1).
  rewrite Hcur in Hinst. by apply Hinst.
Qed.

(** ** Worked examples *)

(** Polling under [changed]: a tick with nothing changed is silent; after
    [a = 3] the next tick publishes [{a: 3}], and the one after is silent
    again. *)
Example poll_changed_example :
  (script [Tick; Assign 1 "a" (VNum 3); Tick; Tick] pair_watched).1
  = [Change {[ "a"%string := VNum 3 ]}].
Proof. vm_compute. reflexivity. Qed.

(** Polling under [all]: changing [a] alone publishes both attributes,
    and so does every later tick. *)
Example poll_all_example :
  (script [All; Assign 1 "a" (VNum 3); Tick; Tick] pair_watched).1
  = [Change {[ "a"%string := VNum 3; "b"%string := VNum 2 ]};
     Change {[ "a"%string := VNum 3; "b"%string := VNum 2 ]}].
Proof. vm_compute. reflexivity. Qed.

(** Interception under [all]: [realTime()] warns and cancels the poll
    timer, and a write publishes the snapshot of every entry, simple
    first, detailed second; [old] is the cached value. *)
Example intercept_all_example :
  (script [RealTime; All; Assign 1 "b" (VNum 7)] pair_watched).1
  = [IntrusiveOverrideWarning; ClearInterval (VNum 50);
     Change {[ "a"%string := VNum 1; "b"%string := VNum 7 ]};
     ChangeFull {[ "a"%string := mkFull (VNum 1) (VNum 1);
                   "b"%string := mkFull (VNum 7) (VNum 2) ]}].
Proof. vm_compute. reflexivity. Qed.

(** [NaN !== NaN]: an attribute holding NaN is reported as changed by
    every tick. *)
Example poll_nan_example :
  (script [Assign 1 "a" VNaN; Tick; Tick] pair_watched).1
  = [Change {[ "a"%string := VNaN ]}; Change {[ "a"%string := VNaN ]}].
Proof. vm_compute. reflexivity. Qed.

(** ** Registration, in closed form *)

Lemma with_added_nil s : with_added [] s = s.
Proof.
  destruct s. unfold with_added. cbn. by rewrite !app_nil_r.
Qed.

Lemma with_added_cons e added s :
  with_added added (with_added [e] s) = with_added (e :: added) s.
Proof.
  unfold with_added. cbn [heap cells entries mode type intervalId registry length seq map].
  rewrite length_app, <- !app_assoc. cbn [length app].
  by rewrite Nat.add_1_r.
Qed.

Lemma has_prop_with_added added s o p : has_prop (with_added added s) o p = has_prop s o p.
Proof. done. Qed.

Lemma registrable_with_added added s o props :
  registrable (with_added added s) o props = registrable s o props.
Proof. induction props as [|item props IH]; [done|]. cbn. by rewrite IH. Qed.

Lemma watch_each_closed_form instance props s :
  watch_each instance props s =
  Run (registration_outcome s instance props) []
      (with_added (snapshot s instance <$> registrable s instance props) s).
Proof.
  revert s. induction props as [|[p k] props IH]; intros s.
  { cbn. by rewrite with_added_nil. }
  cbn [watch_each registrable fst snd]. unfold registration_outcome.
  cbn [registrable fst].
  destruct (has_prop s instance p) eqn:Hp.
  - rewrite (bind_Normal _ _ _ _ _ _ (addEntry_present _ _ _ _ Hp)).
    set (s1 := mkState _ _ _ _ _ _ _).
    assert (Hs1 : s1 = with_added [snapshot s instance (p, k)] s) by done.
    rewrite IH, Hs1, registrable_with_added. cbn [fmap list_fmap length drop].
    unfold registration_outcome. rewrite registrable_with_added.
    cbn [outcome emitted final app]. f_equal.
    apply (with_added_cons (snapshot s instance (p, k))).
  - rewrite (bind_Thrown _ _ _ _ _ _ (addEntry_missing _ _ _ _ Hp)).
    cbn. by rewrite with_added_nil.
Qed.

(** X1.  [watch(instance, items)] registers, in order, exactly the items
    before the first one whose attribute is missing on the instance, each
    with its key defaulting to the attribute name and its [lastValue] read
    from the instance; it publishes nothing and touches nothing else.  It
    throws the attribute-not-found error naming that first missing
    attribute, and returns normally when there is none.  The single form
    is the batch of one item; any other argument throws the
    invalid-arguments error and leaves the state alone. *)
Theorem watch_registers_until_missing (instance : oid) (arg : watch_arg) (s : state) :
  watch instance arg s =
  match arg with
  | One p k =>
      Run (registration_outcome s instance [(p, k)]) []
          (with_added (snapshot s instance <$> registrable s instance [(p, k)]) s)
  | Many props =>
      Run (registration_outcome s instance props) []
          (with_added (snapshot s instance <$> registrable s instance props) s)
  | Other => Run (Thrown InvalidRegistrationArgumentsError) [] s
  end.
Proof.
  destruct arg as [p k|props|]; cbn [watch]; [|apply watch_each_closed_form|done].
  rewrite <- watch_each_closed_form. cbn [watch_each].
  unfold bind. destruct (addEntry instance p (default p k) s) as [[[]|e] evs s1]; [|done].
  cbn. by rewrite app_nil_r.
Qed.

Lemma registrable_all s instance props :
  Forall (λ item, has_prop s instance item.1 = true) props →
  registrable s instance props = props.
Proof.
  induction 1 as [|item props Hp _ IH]; [done|]. cbn. by rewrite Hp, IH.
Qed.

Lemma script_app acts1 acts2 s :
  script (acts1 ++ acts2) s =
  ((script acts1 s).1 ++ (script acts2 (script acts1 s).2).1,
   (script acts2 (script acts1 s).2).2).
Proof.
  revert s. induction acts1 as [|a acts1 IH]; intros s.
  { cbn. by destruct (script acts2 s). }
  cbn [app]. rewrite !script_cons, IH. cbn [fst snd]. by rewrite app_assoc.
Qed.

(** X2.  When every attribute of a batch is present, the batch
    registration is the sequence of the single registrations of its
    items: same final state, no notification, normal return. *)
Theorem watch_batch_is_sequence (instance : oid) (props : list (string * option string))
    (s : state) :
  Forall (λ item, has_prop s instance item.1 = true) props →
  outcome (watch instance (Many props) s) = Normal tt ∧
  script ((λ item, Watch instance (One item.1 item.2)) <$> props) s
  = ([], final (watch instance (Many props) s)).
Proof.
  intros Hall. cbn [watch]. split.
  - rewrite watch_each_closed_form. cbn [outcome]. unfold registration_outcome.
    by rewrite registrable_all, drop_all.
  - revert s Hall. induction props as [|[p k] props IH]; intros s Hall; [done|].
    apply Forall_cons in Hall as [Hp Hall]. cbn [fst snd] in Hp.
    rewrite fmap_cons, script_cons. cbn [perform watch fst snd watch_each].
    rewrite (bind_Normal _ _ _ _ _ _ (addEntry_present _ _ _ _ Hp)).
    rewrite (addEntry_present _ _ _ _ Hp). cbn [emitted final app].
    set (s1 := mkState _ _ _ _ _ _ _). by rewrite (IH s1).
Qed.

Lemma watch_batch_is_sequence_witness :
  Forall (λ item : string * option string, has_prop (create pair_object) 1 item.1 = true)
    [("a"%string, None); ("b"%string, Some "B"%string)] ∧
  entries (final (watch 1 (Many [("a"%string, None); ("b"%string, Some "B"%string)])
                   (create pair_object))) = [0; 1].
Proof.
  assert (H : Forall (λ item : string * option string,
                has_prop (create pair_object) 1 item.1 = true)
    [("a"%string, None); ("b"%string, Some "B"%string)]).
  { repeat constructor. }
  split; [exact H|].
  destruct (watch_batch_is_sequence 1 _ (create pair_object) H) as [_ Hseq].
  apply (f_equal snd) in Hseq. cbn [snd] in Hseq. rewrite <- Hseq.
  vm_compute. reflexivity.
Defined.

(** ** Arming and disarming the timer *)

Lemma clock_closed_form ms s :
  type s ≠ TypeRealTime →
  clock ms s = Run (Normal tt) (disarmed s ++ [SetInterval ms])
                 (with_intervalId (Some ms) (with_type TypeClock s)).
Proof.
  intros Ht. unfold clock. msimpl. rewrite bool_decide_eq_false_2 by done. msimpl.
  destruct (clear_run (with_type TypeClock s)) as [H|[Hn H]];
    rewrite (bind_Normal _ _ _ _ _ _ H); msimpl; [done|].
  unfold disarmed. cbn [with_type intervalId] in *. by rewrite Hn.
Qed.

Lemma armed_app trace1 trace2 timers :
  armed (trace1 ++ trace2) timers = armed trace2 (armed trace1 timers).
Proof.
  revert timers. induction trace1 as [|ev trace1 IH]; intros timers; [done|].
  destruct ev; cbn [app armed]; apply IH.
Qed.

(** Cancelling the held timer leaves none armed, if the held timer was
    the only one. *)
Lemma armed_disarmed s : armed (disarmed s) (held_timer s) = [].
Proof.
  unfold disarmed, held_timer. destruct (intervalId s) as [id|]; [|done].
  cbn. by rewrite bool_decide_eq_true_2.
Qed.

(** X3.  As long as [realTime()] has not been called, [clock(ms)] returns
    normally and publishes no notification; it calls [clearInterval] on
    the timer it holds, if it holds one, and then [setInterval] with [ms],
    once each; it sets the strategy to [clock], keeps the new handle, and
    touches nothing else.  So if the timer it held was the only one armed,
    the new timer is: [clock] never leaves an earlier timer running. *)
Theorem clock_replaces_timer (ms : any) (s : state) :
  type s ≠ TypeRealTime →
  clock ms s = Run (Normal tt) (disarmed s ++ [SetInterval ms])
                 (with_intervalId (Some ms) (with_type TypeClock s)) ∧
  armed (emitted (clock ms s)) (held_timer s) = [ms].
Proof.
  intros Ht. rewrite (clock_closed_form ms s Ht). split; [done|].
  cbn [emitted]. by rewrite armed_app, armed_disarmed.
Qed.

Lemma clock_replaces_timer_witness :
  type polling ≠ TypeRealTime ∧
  emitted (clock (VNum 5) polling) = [ClearInterval (VNum 1000); SetInterval (VNum 5)] ∧
  armed (emitted (clock (VNum 5) polling)) [VNum 1000] = [VNum 5].
Proof.
  assert (Ht : type polling ≠ TypeRealTime) by (vm_compute; discriminate).
  split; [exact Ht|].
  destruct (clock_replaces_timer (VNum 5) polling Ht) as [Hrun Harmed].
  split; [by rewrite Hrun|exact Harmed].
Defined.

Lemma selector_timer s s' : selector s' = selector s → intervalId s' = intervalId s.
Proof. unfold selector. congruence. Qed.

Lemma perform_timer_locked a s :
  type s = TypeRealTime → intervalId s = None → intervalId (final (perform a s)) = None.
Proof.
  intros Hlocked Hoff.
  destruct a as [instance arg|ms| | | |instance| |o p v|o|o]; cbn [perform]; try done.
  - rewrite <- Hoff. apply selector_timer. destruct arg as [p k|props|]; cbn [watch].
    + apply addEntry_selector.
    + apply watch_each_selector.
    + done.
  - unfold clock. msimpl. by rewrite bool_decide_eq_true_2.
  - destruct (realTime_run s) as (out & s' & -> & _ & _ & _ & Hi & _). exact Hi.
  - unfold tick. msimpl. by rewrite Hoff.
  - destruct (assign_frame o p v s) as (evs & s' & -> & Hsel & _).
    rewrite <- Hoff. by apply selector_timer.
  - unfold finalize. msimpl.
    destruct (forEach_cleanup_run (map snd (List.filter (λ r : oid * string, bool_decide (r.1 = o)) (registry s)))
      (with_registry (List.filter (λ r : oid * string, negb (bool_decide (r.1 = o)))) s))
      as (s' & -> & Hsel & _).
    apply selector_timer in Hsel. by rewrite <- Hoff.
Qed.

Lemma script_timer_locked acts s :
  type s = TypeRealTime → intervalId s = None →
  type (script acts s).2 = TypeRealTime ∧ intervalId (script acts s).2 = None.
Proof.
  revert s. induction acts as [|a acts IH]; intros s Ht Hi; [done|].
  rewrite script_cons. cbn [snd].
  apply IH; [by apply perform_type_locked|by apply perform_timer_locked].
Qed.

(** X4.  [realTime()] ends polling for good: after it, whatever is called
    and whatever the runtime does, the strategy is [real-time], no timer
    is armed, and a timer tick changes nothing and publishes nothing. *)
Theorem realTime_ends_polling (acts : list action) (s : state) :
  type (script (RealTime :: acts) s).2 = TypeRealTime ∧
  intervalId (script (RealTime :: acts) s).2 = None ∧
  tick (script (RealTime :: acts) s).2
  = Run (Normal tt) [] (script (RealTime :: acts) s).2.
Proof.
  rewrite script_cons. cbn [snd perform].
  destruct (realTime_run s) as (out & s1 & Hrun & _ & Ht & _ & Hi & _).
  rewrite Hrun. cbn [final].
  destruct (script_timer_locked acts s1 Ht Hi) as [Ht' Hi'].
  split; [done|]. split; [done|].
  unfold tick. msimpl. by rewrite Hi'.
Qed.

(** X5.  [realTime()] returns normally or throws the [TypeError] of
    [Object.defineProperty], and it returns normally exactly when no entry
    of the array asks for a redefinition that is refused.  Either way it
    has sent the override warning and cancelled the timer it held, and
    nothing else; the strategy is [real-time] and no timer is held; the
    entries, the policy and the registry are as they were; no object has
    been created or removed; and the call is invisible to readers: every
    attribute of every object reads the value it read before. *)
Theorem realTime_keeps_values (s : state) :
  ∃ out s', realTime s = Run out (IntrusiveOverrideWarning :: disarmed s) s' ∧
    (out = Normal tt ∨ ∃ p, out = Thrown (CannotRedefinePropertyError p)) ∧
    (out = Normal tt ↔
     ∀ i e, i ∈ entries s → cells s !! i = Some e →
            sealed s (instanceRef e) (prop e) = false) ∧
    type s' = TypeRealTime ∧ intervalId s' = None ∧
    entries s' = entries s ∧ cells s' = cells s ∧ registry s' = registry s ∧
    mode s' = mode s ∧
    (∀ o, is_Some (heap s' !! o) ↔ is_Some (heap s !! o)) ∧
    (∀ o p, read_prop s' o p = read_prop s o p).
Proof.
  destruct (realTime_run s) as (out & s' & Hrun & Hout & Ht & Hm & Hi & He & Hc & Hr).
  exists out, s'. split; [done|]. split; [done|].
  revert Hrun. unfold realTime. msimpl.
  destruct (clear_fields (with_type TypeRealTime s)) as (s1 & H1 & _ & _ & _ & He1 & Hc1 & Hh1 & _).
  rewrite (bind_Normal _ _ _ _ _ _ H1). msimpl.
  destruct (forEach_intercept_installs (entries s1) s1) as (_ & Hd & Hread & _).
  pose proof (forEach_intercept_outcome (entries s1) s1) as Hiff.
  destruct (forEach intercept (entries s1) s1) as [out2 evs2 s2].
  cbn [outcome emitted final with_type heap entries cells] in *.
  intros [= <- _ <-]. split.
  { rewrite Hiff, He1, Hc1.
    split; intros H i e Hi' He'; specialize (H i e Hi' He'); revert H;
      unfold sealed, deref; by rewrite Hh1. }
  repeat (split; [done|]). split.
  - intros o. by rewrite Hd, Hh1.
  - intros o p. rewrite (proj1 (Hread o p)). unfold read_prop, deref. by rewrite Hh1.
Qed.

Lemma realTime_installs_witness :
  outcome (realTime polling) = Normal tt ∧
  0 ∈ entries polling ∧
  cells polling !! 0 = Some (mkEntry 1 "name" "name" (VStr "a")) ∧
  referent_alive polling (mkEntry 1 "name" "name" (VStr "a")) ∧
  intercepted_by (final (realTime polling)) (entries polling) 1 "name" (VStr "a").
Proof.
  assert (Ho : outcome (realTime polling) = Normal tt) by (vm_compute; reflexivity).
  assert (Hi : 0 ∈ entries polling).
  { assert (He : entries polling = [0; 1]) by (vm_compute; reflexivity).
    rewrite He. apply list_elem_of_here. }
  assert (Hc : cells polling !! 0 = Some (mkEntry 1 "name" "name" (VStr "a")))
    by (vm_compute; reflexivity).
  assert (Ha : referent_alive polling (mkEntry 1 "name" "name" (VStr "a"))).
  { vm_compute. eexists. reflexivity. }
  split; [exact Ho|]. split; [exact Hi|]. split; [exact Hc|]. split; [exact Ha|].
  exact (realTime_installs polling 0 _ Ho Hi Hc Ha).
Defined.

(** A sealed object stops [realTime()]: the attributes of the entries
    before it are intercepted, those after it are not; the strategy is
    [real-time] all the same, so that [clock] is refused from then on. *)
Example realTime_aborts_example :
  outcome (realTime sealed_last) = Thrown (CannotRedefinePropertyError "name") ∧
  heap (final (realTime sealed_last))
  = {[ 1 := {[ "name"%string := Sealed (VStr "a") ]};
       2 := {[ "name"%string := Accessor (VStr "b") 0 ]} ]} ∧
  outcome (realTime sealed_first) = Thrown (CannotRedefinePropertyError "name") ∧
  heap (final (realTime sealed_first)) = sealed_objects ∧
  outcome (clock (VNum 10) (final (realTime sealed_first)))
  = Thrown IllegalStrategyTransitionError.
Proof. vm_compute. repeat split. Qed.

(** X7.  Registration installs no interceptor: when an ordinary attribute
    is registered and then assigned, the assignment publishes nothing,
    the attribute reads the new value, and the new entry still caches the
    value the attribute had at registration.  In particular an attribute
    registered after [realTime()] is not watched by the intercept
    detector. *)
Theorem late_registration_not_intercepted (o : oid) (p : string) (k : option string)
    (v w : any) (instance : gmap string slot) (s : state) :
  deref s o = Some instance → instance !! p = Some (Data w) →
  (script [Watch o (One p k); Assign o p v] s).1 = [] ∧
  read_prop (script [Watch o (One p k); Assign o p v] s).2 o p = v ∧
  cells (script [Watch o (One p k); Assign o p v] s).2 !! length (cells s)
  = Some (mkEntry o p (default p k) w).
Proof.
  intros Ho Hp.
  assert (Hhas : has_prop s o p = true).
  { unfold has_prop. rewrite Ho, Hp. by apply bool_decide_eq_true. }
  rewrite !script_cons. cbn [script perform watch fst snd].
  rewrite (addEntry_present _ _ _ _ Hhas). cbn [final emitted app].
  set (s1 := mkState _ _ _ _ _ _ _).
  assert (Hassign : assign o p v s1 = Run (Normal tt) [] (with_heap <[o:=<[p:=Data v]> instance]> s1)).
  { unfold assign. msimpl. unfold deref in *. cbn [s1 heap]. by rewrite Ho, Hp. }
  rewrite Hassign. cbn [emitted final app]. split; [done|]. split.
  - unfold read_prop, deref. cbn [with_heap heap]. rewrite lookup_insert_eq.
    unfold get_prop. by rewrite lookup_insert_eq.
  - cbn [with_heap s1 cells]. rewrite list_lookup_middle by done.
    unfold read_prop, get_prop. by rewrite Ho, Hp.
Qed.

Lemma late_registration_not_intercepted_witness :
  deref intercepting 2 = Some {[ "name"%string := Data (VStr "b") ]} ∧
  (script [Watch 2 (One "name" None); Assign 2 "name" (VStr "c")] intercepting).1 = [].
Proof.
  assert (Ho : deref intercepting 2 = Some {[ "name"%string := Data (VStr "b") ]})
    by (vm_compute; reflexivity).
  split; [exact Ho|].
  refine (proj1 (late_registration_not_intercepted 2 "name" None (VStr "c") (VStr "b")
                   _ intercepting Ho _)).
  vm_compute. reflexivity.
Defined.

(** ** The snapshots of the [all] policy *)

Lemma buildAllPayload_closed s : buildAllPayload s = Run (Normal (all_payload s)) [] s.
Proof. unfold buildAllPayload. by msimpl. Qed.

Lemma buildFullAllPayload_closed s :
  mode s = ModeAll → buildFullAllPayload s = Run (Normal (full_payload s)) [] s.
Proof.
  intros Hm. unfold buildFullAllPayload. msimpl.
  by rewrite bool_decide_eq_true_2.
Qed.

Lemma all_payload_report s :
  all_payload s = foldl (report (heap s) ModeAll (cells s)) ∅ (entries s).
Proof.
  unfold all_payload. generalize (∅ : gmap string any).
  induction (entries s) as [|i es IH]; intros u; [done|].
  cbn [foldl]. rewrite IH. f_equal. unfold report, may_report, current_in, deref.
  destruct (cells s !! i) as [e|]; [|done].
  by destruct (heap s !! instanceRef e).
Qed.

Lemma may_report_all s e : may_report (heap s) ModeAll e = true ↔ referent_alive s e.
Proof.
  unfold may_report, referent_alive, deref.
  destruct (heap s !! instanceRef e); cbn; [by split; [eexists|]|].
  split; [done|]. by intros [].
Qed.



(** The two snapshots have the same own keys, and the [new] component of
    a pair is the simple snapshot's value. *)
Lemma snapshots_related s k : new <$> full_payload s !! k = all_payload s !! k.
Proof.
  unfold full_payload, all_payload.
  assert (H0 : new <$> (∅ : gmap string full) !! k = (∅ : gmap string any) !! k).
  { by rewrite !lookup_empty. }
  revert H0. generalize (∅ : gmap string full) (∅ : gmap string any).
  induction (entries s) as [|i es IH]; intros uF uP Hu; [done|].
  cbn [foldl]. apply IH.
  destruct (cells s !! i) as [e|]; [|done].
  destruct (deref s (instanceRef e)) as [instance|]; [|done].
  unfold assign_key. case_bool_decide; [done|].
  rewrite !lookup_insert. by case_decide.
Qed.

Lemma snapshots_empty s : full_payload s = ∅ ↔ all_payload s = ∅.
Proof.
  split; intros H; apply map_empty; intros k;
    pose proof (snapshots_related s k) as Hk; rewrite H, lookup_empty in Hk.
  - by rewrite <- Hk.
  - by destruct (full_payload s !! k).
Qed.

Lemma full_payload_old s l1 i l2 e :
  entries s = l1 ++ i :: l2 → cells s !! i = Some e → referent_alive s e →
  key e ≠ "__proto__"%string →
  (∀ j e', j ∈ l2 → cells s !! j = Some e' → referent_alive s e' → key e' ≠ key e) →
  full_payload s !! key e = Some (mkFull (current s e) (lastValue e)).
Proof.
  unfold full_payload. intros -> He [instance Ha] Hk Hl2. rewrite foldl_app. cbn [foldl].
  rewrite He, Ha.
  set (u := assign_key (key e) _ _).
  assert (Hu : u !! key e = Some (mkFull (current s e) (lastValue e))).
  { unfold u. rewrite assign_key_lookup_eq by done.
    unfold current, current_in, deref in *. by rewrite Ha. }
  clearbody u. revert u Hu. induction l2 as [|j l2 IH]; intros u Hu; [done|].
  cbn [foldl]. apply IH.
  - intros j' e' Hj'. apply Hl2. by apply list_elem_of_further.
  - destruct (cells s !! j) as [e'|] eqn:He'; [|done].
    destruct (deref s (instanceRef e')) as [instance'|] eqn:Ha'; [|done].
    rewrite assign_key_lookup_ne; [done|].
    apply (Hl2 j e'); [apply list_elem_of_here|done|]. by eexists.
Qed.



(** ** An intercepted write, policy by policy *)

Lemma set_closed_form o p value i v e s :
  strict_neq v value = true → cells s !! i = Some e →
  set o p value i v s =
  Run (Normal tt)
      (publications (with_heap (alter <[p:=Accessor v i]> o) s) e v)
      (with_cells (alter (set_lastValue v) i) (with_heap (alter <[p:=Accessor v i]> o) s)).
Proof.
  intros Hv He. unfold set. rewrite Hv. msimpl.
  set (s1 := with_heap _ s).
  assert (He1 : cells s1 !! i = Some e) by done. rewrite He1.
  unfold publications. destruct (mode s1) eqn:Hm.
  - rewrite (bool_decide_eq_false_2 (ModeAll = ModeUndefined)) by done.
    rewrite !(bool_decide_eq_true_2 (ModeAll = ModeAll)) by done. cbn [negb].
    rewrite !bind_assoc.
    rewrite (bind_Normal _ _ _ _ _ _ (buildFullAllPayload_closed s1 Hm)).
    rewrite !bind_assoc.
    rewrite (bind_Normal _ _ _ _ _ _ (buildAllPayload_closed s1)).
    destruct (bool_decide (all_payload s1 ≠ ∅)), (bool_decide (full_payload s1 ≠ ∅));
      by msimpl.
  - rewrite (bool_decide_eq_false_2 (ModeChanged = ModeUndefined)) by done.
    rewrite !(bool_decide_eq_false_2 (ModeChanged = ModeAll)) by done. cbn [negb].
    msimpl.
    rewrite (bool_decide_eq_true_2 ({[key e := v]} ≠ ∅)) by apply map_non_empty_singleton.
    msimpl. destruct (strict_neq v (lastValue e)).
    + rewrite bool_decide_eq_true_2 by apply map_non_empty_singleton. by msimpl.
    + rewrite bool_decide_eq_false_2 by (by intros []). by msimpl.
  - rewrite (bool_decide_eq_true_2 (ModeUndefined = ModeUndefined)) by done.
    cbn [negb]. by msimpl.
Qed.


Lemma strict_neq_refl a : strict_neq a a = false ↔ a ≠ VNaN.
Proof.
  unfold strict_neq, strict_eq. rewrite negb_false_iff.
  destruct a; try (by rewrite bool_decide_eq_true_2). by split.
Qed.

Lemma all_payload_keys s k :
  is_Some (all_payload s !! k) ↔
  k ≠ "__proto__"%string ∧
  ∃ i e, i ∈ entries s ∧ cells s !! i = Some e ∧ key e = k ∧ referent_alive s e.
Proof.
  rewrite all_payload_report, foldl_report_is_Some, lookup_empty. split.
  - intros [[? [=]]|(Hk & i & e & Hi & He & <- & Hr)]. split; [done|].
    exists i, e. by rewrite <- may_report_all.
  - intros (Hk & i & e & Hi & He & <- & Hr). right. split; [done|].
    exists i, e. by rewrite may_report_all.
Qed.

Lemma all_payload_last s l1 i l2 e :
  entries s = l1 ++ i :: l2 → cells s !! i = Some e → referent_alive s e →
  key e ≠ "__proto__"%string →
  (∀ j e', j ∈ l2 → cells s !! j = Some e' → referent_alive s e' → key e' ≠ key e) →
  all_payload s !! key e = Some (current s e).
Proof.
  intros Hes He Ha Hk Hl2. rewrite all_payload_report, Hes.
  apply foldl_report_last; [done|by apply may_report_all|done|].
  intros j e' Hj He' Hr'. apply (Hl2 j e'); [done|done|]. by apply may_report_all.
Qed.

(** X10.  Under the [all] policy, with no entry of the array keyed
    [__proto__], assigning to an intercepted attribute a value [v] that
    differs from the one its setter holds publishes the two snapshots of
    the whole registry, taken after the write: first [change] with every
    live entry's current value, then [change:full] with the matching
    [{new, old}] pairs; both, or neither when no entry is live.
    Afterwards the written entry caches [v], its other fields being what
    they were.  When the written entry is live, watches the assigned
    attribute and no later live entry shares its key, its key maps to [v]
    and to [{new: v, old: lastValue}]. *)
Theorem intercepted_write_all (o : oid) (p : string) (v : any) (s : state)
    (instance : gmap string slot) (value : any) (i : nat) (e : WatchedEntry) :
  mode s = ModeAll →
  ordinary_keys s →
  deref s o = Some instance →
  instance !! p = Some (Accessor value i) →
  cells s !! i = Some e →
  strict_neq v value = true →
  ∃ (payload : gmap string any) (fullPayload : gmap string full),
    outcome (assign o p v s) = Normal tt ∧
    emitted (assign o p v s) =
      (if bool_decide (payload ≠ ∅) then [Change payload; ChangeFull fullPayload] else []) ∧
    (∀ k, new <$> fullPayload !! k = payload !! k) ∧
    (∀ k, is_Some (payload !! k) ↔
          ∃ j e', j ∈ entries s ∧ cells s !! j = Some e' ∧ key e' = k ∧ referent_alive s e') ∧
    (∃ e', cells (final (assign o p v s)) !! i = Some e' ∧ lastValue e' = v ∧
           instanceRef e' = instanceRef e ∧ prop e' = prop e ∧ key e' = key e) ∧
    (∀ l1 l2,
        entries s = l1 ++ i :: l2 → instanceRef e = o → prop e = p →
        (∀ j e', j ∈ l2 → cells s !! j = Some e' → referent_alive s e' → key e' ≠ key e) →
        payload !! key e = Some v ∧ fullPayload !! key e = Some (mkFull v (lastValue e))).
Proof.
  intros Hm Hkeys Ho Hp He Hv.
  set (s1 := with_heap (alter <[p:=Accessor v i]> o) s).
  assert (Halive : ∀ e', referent_alive s1 e' ↔ referent_alive s e').
  { intros e'. unfold referent_alive, deref. cbn [s1 with_heap heap].
    rewrite lookup_alter. case_decide as Heq; [|done]. rewrite <- Heq.
    unfold deref in Ho. rewrite Ho. split; by eexists. }
  assert (Hcur : instanceRef e = o → prop e = p → current s1 e = v).
  { intros <- <-. unfold current, current_in. cbn [s1 with_heap heap].
    unfold deref in Ho. rewrite lookup_alter_eq, Ho. cbn.
    unfold get_prop. by rewrite lookup_insert_eq. }
  exists (all_payload s1), (full_payload s1).
  assert (Hrun : assign o p v s = set o p value i v s).
  { unfold assign. msimpl. by rewrite Ho, Hp. }
  rewrite Hrun, (set_closed_form o p value i v e s Hv He). fold s1.
  cbn [outcome emitted final]. split; [done|]. split; [|split; [|split; [|split]]].
  - unfold publications. replace (mode s1) with ModeAll by done.
    destruct (bool_decide_reflect (all_payload s1 ≠ ∅)) as [Hne|Hemp].
    + rewrite bool_decide_eq_true_2; [done|]. by rewrite snapshots_empty.
    + rewrite bool_decide_eq_false_2; [done|]. by rewrite snapshots_empty.
  - apply snapshots_related.
  - intros k. rewrite all_payload_keys. split.
    + intros (_ & j & e' & Hj & He' & Hk & Ha). exists j, e'.
      repeat (split; [done|]). by apply Halive.
    + intros (j & e' & Hj & He' & Hk & Ha). split.
      * rewrite <- Hk. by apply (Hkeys j e').
      * exists j, e'. repeat (split; [done|]). by apply Halive.
  - exists (set_lastValue v e). cbn [with_cells cells s1 with_heap].
    by rewrite list_lookup_alter_eq, He.
  - intros l1 l2 Hes Hre Hpe Hl2.
    assert (Hk : key e ≠ "__proto__"%string).
    { apply (Hkeys i e); [|done]. rewrite Hes, elem_of_app. right. apply list_elem_of_here. }
    assert (Ha1 : referent_alive s1 e).
    { apply Halive. unfold referent_alive. rewrite Hre, Ho. by eexists. }
    assert (Hl2' : ∀ j e', j ∈ l2 → cells s1 !! j = Some e' → referent_alive s1 e' →
                           key e' ≠ key e).
    { intros j e' Hj He' Ha'. apply (Hl2 j e'); [done|done|]. by apply Halive. }
    split.
    + rewrite <- (Hcur Hre Hpe). by apply (all_payload_last s1 l1 i l2 e).
    + rewrite (full_payload_old s1 l1 i l2 e); [|done|done|done|done|done].
      by rewrite (Hcur Hre Hpe).
Qed.

Lemma intercepted_write_all_witness :
  ordinary_keys (with_mode ModeAll intercepting) ∧
  emitted (assign 1 "name" (VStr "X") (with_mode ModeAll intercepting))
  = [Change {[ "n"%string := VStr "X" ]};
     ChangeFull {[ "n"%string := mkFull (VStr "X") (VStr "a") ]}] ∧
  ∃ e', cells (final (assign 1 "name" (VStr "X") (with_mode ModeAll intercepting))) !! 0
        = Some e' ∧ lastValue e' = VStr "X".
Proof.
  assert (Hm : mode (with_mode ModeAll intercepting) = ModeAll) by reflexivity.
  assert (Hkeys : ordinary_keys (with_mode ModeAll intercepting)).
  { apply ordinary_keys_check. vm_compute. reflexivity. }
  assert (Ho : deref (with_mode ModeAll intercepting) 1
               = Some {[ "name"%string := Accessor (VStr "a") 0 ]})
    by (vm_compute; reflexivity).
  assert (Hp : ({[ "name"%string := Accessor (VStr "a") 0 ]} : gmap string slot) !! "name"%string
               = Some (Accessor (VStr "a") 0)) by (vm_compute; reflexivity).
  assert (He : cells (with_mode ModeAll intercepting) !! 0
               = Some (mkEntry 1 "name" "n" (VStr "a"))) by (vm_compute; reflexivity).
  assert (Hv : strict_neq (VStr "X") (VStr "a") = true) by (vm_compute; reflexivity).
  split; [exact Hkeys|]. split; [vm_compute; reflexivity|].
  destruct (intercepted_write_all 1 "name" (VStr "X") _ _ _ _ _ Hm Hkeys Ho Hp He Hv)
    as (payload & fullPayload & _ & _ & _ & _ & (e' & Hcache & Hlast & _) & _).
  by exists e'.
Defined.




(** ** Consecutive poll ticks *)

Lemma foldl_report_silent h m cs es u :
  (∀ i e, i ∈ es → cs !! i = Some e → may_report h m e = false) →
  foldl (report h m cs) u es = u.
Proof.
  revert u. induction es as [|i es IH]; intros u H; [done|].
  cbn [foldl]. rewrite IH by (intros j e Hj; by apply H, list_elem_of_further).
  unfold report. destruct (cs !! i) as [e|] eqn:He; [|done].
  by rewrite (H i e) by (done || apply list_elem_of_here).
Qed.

Lemma may_report_refreshed h e :
  current_in h e ≠ VNaN → may_report h ModeChanged (refreshed h e) = false.
Proof.
  unfold may_report, refreshed, current_in.
  destruct (h !! instanceRef e) as [instance|] eqn:Hi.
  2:{ by rewrite Hi. }
  intros Hnan. rewrite (bool_decide_eq_false_2 (ModeChanged = ModeAll)) by done. cbn [orb].
  destruct (strict_neq (get_prop instance (prop e)) (lastValue e)) eqn:Hc;
    cbn [set_lastValue instanceRef prop lastValue]; rewrite Hi; cbn [orb].
  - by apply strict_neq_refl.
  - done.
Qed.

(** X13.  Under the [changed] policy polling is quiescent: a tick that
    directly follows a tick publishes nothing, provided no live watched
    attribute holds NaN (which differs from itself, and is therefore
    reported by every tick). *)
Theorem second_tick_is_silent (s : state) :
  NoDup (entries s) → mode s = ModeChanged →
  (∀ i e, i ∈ entries s → cells s !! i = Some e → referent_alive s e →
          current s e ≠ VNaN) →
  emitted (check (final (check s))) = [].
Proof.
  intros Hnd Hm Hnan.
  destruct (check_filter_spec (heap s) (mode s) (entries s) (cells s) ∅ Hnd) as [Hcells _].
  destruct (check_filter_kept (heap s) (mode s) (entries s) (cells s) ∅) as [Hkept _].
  rewrite (check_run s). cbn [final].
  set (s1 := mkState _ _ _ _ _ _ _).
  destruct (check_emitted s1) as (updates & Hupd & ->).
  assert (Hnd1 : NoDup (entries s1)).
  { cbn [s1 entries]. rewrite Hkept. apply (sublist_NoDup _ (entries s)); [done|apply sublist_List_filter]. }
  destruct (check_filter_spec (heap s1) (mode s1) (entries s1) (cells s1) ∅ Hnd1) as [_ Hfold].
  rewrite Hfold in Hupd. rewrite foldl_report_silent in Hupd.
  { subst updates. by rewrite bool_decide_eq_false_2 by (by intros []). }
  intros i e1 Hi He1. cbn [s1 entries cells heap mode] in *. rewrite Hm.
  rewrite Hkept in Hi. apply elem_of_List_filter in Hi as [Hi Hlive].
  rewrite Hcells, decide_True in He1 by done.
  destruct (cells s !! i) as [e|] eqn:He; [|done]. injection He1 as <-.
  apply may_report_refreshed. apply (Hnan i e Hi He).
  unfold live_in in Hlive. rewrite He in Hlive. by apply bool_decide_eq_true in Hlive.
Qed.

Lemma second_tick_is_silent_witness :
  emitted (check (final (check (script [Assign 1 "a" (VNum 3)] pair_watched).2))) = [].
Proof.
  apply second_tick_is_silent.
  - apply (bool_decide_unpack _). vm_compute. exact I.
  - vm_compute. reflexivity.
  - intros i e Hi He _.
    assert (Hes : entries (script [Assign 1 "a" (VNum 3)] pair_watched).2 = [0; 1])
      by (vm_compute; reflexivity).
    rewrite Hes in Hi.
    apply elem_of_cons in Hi as [->|Hi]; [|apply elem_of_cons in Hi as [->|Hi]].
    + vm_compute in He. injection He as <-. vm_compute. discriminate.
    + vm_compute in He. injection He as <-. vm_compute. discriminate.
    + by apply elem_of_nil in Hi.
Defined.

Lemma foldl_report_all_shape h cs cs' es u :
  same_shape cs' cs →
  foldl (report h ModeAll cs') u es = foldl (report h ModeAll cs) u es.
Proof.
  intros Hshape. revert u. induction es as [|i es IH]; intros u; [done|].
  cbn [foldl]. rewrite IH. f_equal. unfold report.
  pose proof (same_shape_lookup _ _ i Hshape) as Hi.
  destruct (cs' !! i) as [e'|], (cs !! i) as [e|]; try done.
  cbn in Hi. injection Hi as Hr Hp Hk.
  unfold may_report, current_in. rewrite Hr, Hp, Hk.
  destruct (h !! instanceRef e); [|done].
  by rewrite !(bool_decide_eq_true_2 (ModeAll = ModeAll)) by done.
Qed.

Lemma foldl_report_live h m cs es u :
  foldl (report h m cs) u (List.filter (live_in h cs) es) = foldl (report h m cs) u es.
Proof.
  revert u. induction es as [|i es IH]; intros u; [done|].
  cbn [List.filter foldl]. destruct (live_in h cs i) eqn:Hlive.
  - cbn [foldl]. by rewrite IH.
  - rewrite IH. f_equal. unfold report, live_in, may_report in *.
    destruct (cs !! i) as [e|]; [|done].
    apply bool_decide_eq_false in Hlive.
    destruct (h !! instanceRef e); [|done]. destruct Hlive. by eexists.
Qed.

(** X14.  Under the [all] policy a poll tick publishes the snapshot that
    [buildAllPayload] builds (when it is not empty), and a tick that
    directly follows a tick publishes the same notification again. *)
Theorem all_tick_repeats_snapshot (s : state) :
  NoDup (entries s) → mode s = ModeAll →
  emitted (check s)
  = (if bool_decide (all_payload s ≠ ∅) then [Change (all_payload s)] else []) ∧
  emitted (check (final (check s))) = emitted (check s).
Proof.
  intros Hnd Hm.
  assert (Hfirst : ∀ s, NoDup (entries s) → mode s = ModeAll →
    emitted (check s)
    = (if bool_decide (all_payload s ≠ ∅) then [Change (all_payload s)] else [])).
  { clear. intros s Hnd Hm.
    destruct (check_filter_spec (heap s) (mode s) (entries s) (cells s) ∅ Hnd) as [_ Hfold].
    destruct (check_emitted s) as (updates & Hupd & ->).
    rewrite Hfold in Hupd. subst updates. by rewrite all_payload_report, Hm. }
  split; [by apply Hfirst|].
  destruct (check_filter_kept (heap s) (mode s) (entries s) (cells s) ∅) as [Hkept Hshape].
  rewrite (Hfirst s Hnd Hm), (check_run s). cbn [final].
  set (s1 := mkState _ _ _ _ _ _ _).
  assert (Hnd1 : NoDup (entries s1)).
  { cbn [s1 entries]. rewrite Hkept. apply (sublist_NoDup _ (entries s)); [done|apply sublist_List_filter]. }
  rewrite (Hfirst s1 Hnd1 Hm).
  assert (Heq : all_payload s1 = all_payload s).
  { rewrite !all_payload_report. cbn [s1 heap cells entries].
    rewrite (foldl_report_all_shape _ _ _ _ _ Hshape), Hkept.
    apply foldl_report_live. }
  by rewrite Heq.
Qed.

Lemma all_tick_repeats_snapshot_witness :
  emitted (check (final (check (script [All] pair_watched).2)))
  = [Change {[ "a"%string := VNum 1; "b"%string := VNum 2 ]}].
Proof.
  assert (Hnd : NoDup (entries (script [All] pair_watched).2)).
  { apply (bool_decide_unpack _). vm_compute. exact I. }
  assert (Hm : mode (script [All] pair_watched).2 = ModeAll) by (vm_compute; reflexivity).
  rewrite (proj2 (all_tick_repeats_snapshot _ Hnd Hm)).
  vm_compute. reflexivity.
Defined.

(** ** After [unwatch] *)

Lemma List_filter_comm {A} (f g : A → bool) (l : list A) :
  List.filter f (List.filter g l) = List.filter g (List.filter f l).
Proof.
  induction l as [|x l IH]; [done|]. cbn [List.filter].
  destruct (f x) eqn:Hf, (g x) eqn:Hg; cbn [List.filter]; rewrite ?Hf, ?Hg, IH; done.
Qed.

Lemma List_filter_idem {A} (f : A → bool) (l : list A) :
  List.filter f (List.filter f l) = List.filter f l.
Proof.
  induction l as [|x l IH]; [done|]. cbn [List.filter].
  destruct (f x) eqn:Hf; cbn [List.filter]; rewrite ?Hf, IH; done.
Qed.

(** X15.  [unwatch] always returns normally, publishes nothing and
    writes nothing but the array of entries; it is idempotent, and two
    calls commute: the entries left do not depend on the order in which
    objects are unwatched. *)
Theorem unwatch_idempotent_commutes (a b : oid) (s : state) :
  unwatch a s = Run (Normal tt) [] (with_entries (λ _, entries (final (unwatch a s))) s) ∧
  unwatch a (final (unwatch a s)) = unwatch a s ∧
  unwatch a (final (unwatch b s))
  = Run (Normal tt) [] (final (unwatch b (final (unwatch a s)))).
Proof.
  unfold unwatch, update, with_entries, deref. cbn [final heap cells entries mode type
    intervalId registry]. split; [done|]. split.
  - do 2 f_equal. apply List_filter_idem.
  - do 2 f_equal. apply List_filter_comm.
Qed.

(** X16.  After [unwatch(object)] a poll tick reports no entry of
    [object]: every key of the payload it publishes is the key of an
    entry that is still in the array, whose referent is alive and is
    another object. *)
Theorem unwatch_silences_polling (instance : oid) (s : state) :
  NoDup (entries s) →
  ∃ updates : gmap string any,
    emitted (check (final (unwatch instance s)))
    = (if bool_decide (updates ≠ ∅) then [Change updates] else []) ∧
    ∀ k, is_Some (updates !! k) →
         ∃ i e, i ∈ entries s ∧ cells s !! i = Some e ∧ key e = k ∧
                referent_alive s e ∧ instanceRef e ≠ instance.
Proof.
  intros Hnd.
  set (s1 := final (unwatch instance s)).
  assert (Hsub : sublist (entries s1) (entries s)) by apply sublist_List_filter.
  assert (Hnd1 : NoDup (entries s1)) by (by apply (sublist_NoDup _ (entries s))).
  destruct (check_filter_spec (heap s1) (mode s1) (entries s1) (cells s1) ∅ Hnd1) as [_ Hfold].
  destruct (check_emitted s1) as (updates & Hupd & Hev).
  exists updates. split; [done|]. intros k Hk.
  rewrite <- Hupd, Hfold, foldl_report_is_Some, lookup_empty in Hk.
  destruct Hk as [[? [=]]|(_ & i & e & Hi & He & Hkey & Hrep)].
  exists i, e. cbn [s1 unwatch update final with_entries entries cells heap mode] in *.
  apply elem_of_List_filter in Hi as [Hi Hkeep]. rewrite He in Hkeep.
  split; [done|]. split; [done|]. split; [done|].
  unfold referent_alive. destruct (deref s (instanceRef e)); [|done].
  split; [by eexists|]. by apply negb_true_iff, bool_decide_eq_false in Hkeep.
Qed.

Lemma unwatch_silences_polling_witness :
  NoDup (entries polling) ∧
  ∃ updates : gmap string any,
    emitted (check (final (unwatch 1 polling)))
    = (if bool_decide (updates ≠ ∅) then [Change updates] else []) ∧
    ∀ k, is_Some (updates !! k) →
         ∃ i e, i ∈ entries polling ∧ cells polling !! i = Some e ∧ key e = k ∧
                referent_alive polling e ∧ instanceRef e ≠ 1.
Proof.
  assert (Hnd : NoDup (entries polling)).
  { apply (bool_decide_unpack _). vm_compute. exact I. }
  split; [exact Hnd|]. exact (unwatch_silences_polling 1 polling Hnd).
Defined.

(** X17.  [unwatch] removes entries, not interceptors: under the
    [changed] policy an assignment publishes after [unwatch] exactly what
    it would have published before, so an intercepted attribute of an
    unwatched object keeps notifying. *)
Theorem unwatch_keeps_interceptors (instance o : oid) (p : string) (v : any) (s : state) :
  mode s = ModeChanged →
  emitted (assign o p v (final (unwatch instance s))) = emitted (assign o p v s).
Proof.
  intros Hm. set (s1 := final (unwatch instance s)).
  unfold assign. msimpl.
  assert (Hd : deref s1 o = deref s o) by done. rewrite Hd.
  destruct (deref s o) as [obj|]; [|done].
  destruct (obj !! p) as [[w|value i|w]|]; [done| |done|done].
  destruct (strict_neq v value) eqn:Hv.
  2:{ unfold set. by rewrite Hv. }
  assert (Hc : cells s1 !! i = cells s !! i) by done.
  destruct (cells s !! i) as [e|] eqn:He.
  - rewrite (set_closed_form o p value i v e s Hv He).
    rewrite (set_closed_form o p value i v e s1 Hv Hc). cbn [emitted].
    unfold publications.
    replace (mode (with_heap (alter <[p:=Accessor v i]> o) s1)) with ModeChanged by done.
    by replace (mode (with_heap (alter <[p:=Accessor v i]> o) s)) with ModeChanged by done.
  - unfold set. rewrite Hv. msimpl.
    assert (He1 : cells (with_heap (alter <[p:=Accessor v i]> o) s1) !! i = None) by done.
    assert (He0 : cells (with_heap (alter <[p:=Accessor v i]> o) s) !! i = None) by done.
    by rewrite He1, He0.
Qed.

Lemma unwatch_keeps_interceptors_witness :
  mode intercepting = ModeChanged ∧
  emitted (assign 1 "name" (VStr "X") (final (unwatch 1 intercepting)))
  = [Change {[ "n"%string := VStr "X" ]};
     ChangeFull {[ "n"%string := mkFull (VStr "X") (VStr "a") ]}].
Proof.
  assert (Hm : mode intercepting = ModeChanged) by (vm_compute; reflexivity).
  split; [exact Hm|].
  rewrite (unwatch_keeps_interceptors 1 1 "name" (VStr "X") intercepting Hm).
  vm_compute. reflexivity.
Defined.

(** ** Witnesses of the invariants *)

Lemma two_objects_plain o instance p v i :
  two_objects !! o = Some instance → instance !! p ≠ Some (Accessor v i).
Proof.
  unfold two_objects. rewrite lookup_insert. case_decide.
  - intros [= <-]. rewrite lookup_singleton. by case_decide.
  - rewrite lookup_singleton. case_decide; [|done].
    intros [= <-]. rewrite lookup_singleton. by case_decide.
Qed.

Lemma reachable_wf_witness :
  (∀ o instance p v i,
     two_objects !! o = Some instance → instance !! p ≠ Some (Accessor v i)) ∧
  NoDup (entries (script [Watch 1 (One "name" None); RealTime; Unwatch 2]
                    (create two_objects)).2).
Proof.
  split; [exact two_objects_plain|].
  exact (wf_nodup _ (reachable_wf two_objects
           [Watch 1 (One "name" None); RealTime; Unwatch 2] two_objects_plain)).
Defined.

Lemma finalize_removes_own_entries_witness :
  wf same_key ∧
  ∀ i e, i ∈ entries (final (finalize 1 same_key)) → cells same_key !! i = Some e →
         instanceRef e ≠ 1.
Proof.
  assert (Hwf : wf same_key) by apply wf_script, wf_create, two_objects_plain.
  split; [exact Hwf|]. exact (finalize_removes_own_entries 1 same_key Hwf).
Defined.

(** ** Version 2.1.0 simulates version 2.0.0 *)

Lemma v2_0_watch_each_closed_form instance props s :
  V2_0.watch_each instance props s =
  Run (registration_outcome s instance props) []
      (with_registry (λ _, registry s)
         (with_added (snapshot s instance <$> registrable s instance props) s)).
Proof.
  revert s. induction props as [|[p k] props IH]; intros s.
  { cbn. destruct s. unfold with_added, with_registry. cbn. by rewrite !app_nil_r. }
  cbn [V2_0.watch_each registrable fst snd]. unfold registration_outcome.
  cbn [registrable fst]. rewrite bind_assoc, bind_read.
  unfold V2_0.addEntry. rewrite bind_assoc, bind_read. cbn [instanceRef prop].
  destruct (has_prop s instance p) eqn:Hp; cbn [negb].
  - rewrite bind_update. rewrite IH.
    set (s1 := with_entries _ _).
    assert (Hs1 : s1 = with_registry (λ _, registry s)
                         (with_added [snapshot s instance (p, k)] s)) by done.
    assert (Hr : registrable s1 instance props = registrable s instance props).
    { clear. induction props as [|item props IH]; [done|]. cbn. by rewrite IH. }
    unfold registration_outcome. rewrite Hr. cbn [fmap list_fmap length drop].
    f_equal. rewrite Hs1. unfold with_registry, with_added.
    cbn [heap cells entries mode type intervalId registry length seq map].
    rewrite length_app, <- !app_assoc. cbn [length app]. by rewrite Nat.add_1_r.
  - rewrite bind_throw. cbn. destruct s. unfold with_added, with_registry. cbn.
    by rewrite !app_nil_r.
Qed.

Lemma all_alive_registry g s : all_alive (with_registry g s) ↔ all_alive s.
Proof. split; intros H i Hi; exact (H i Hi). Qed.

Lemma intercept_registry g i s :
  intercept i (with_registry g s)
  = Run (outcome (intercept i s)) [] (with_registry g (final (intercept i s))).
Proof.
  unfold intercept, deref. msimpl. cbn [with_registry cells heap].
  destruct (cells s !! i) as [e|]; [|done].
  destruct (heap s !! instanceRef e) as [instance|]; [|done].
  by destruct (instance !! prop e) as [[w|v0 j|w]|].
Qed.

Lemma forEach_intercept_registry g l s :
  forEach intercept l (with_registry g s)
  = Run (outcome (forEach intercept l s)) []
      (with_registry g (final (forEach intercept l s))).
Proof.
  revert s. induction l as [|i l IH]; intros s; [done|].
  rewrite !forEach_cons.
  pose proof (intercept_registry g i s) as Hreg.
  destruct (intercept_run i s) as (out1 & s1 & Hrun & [->|[q ->]] & _);
    rewrite Hrun in Hreg; cbn [outcome final] in Hreg.
  - rewrite (bind_Normal _ _ _ _ _ _ Hreg), (bind_Normal _ _ _ _ _ _ Hrun). by rewrite IH.
  - by rewrite (bind_Thrown _ _ _ _ _ _ Hreg), (bind_Thrown _ _ _ _ _ _ Hrun).
Qed.

Lemma realTime_registry g s :
  realTime (with_registry g s)
  = Run (outcome (realTime s)) (emitted (realTime s))
      (with_registry g (final (realTime s))).
Proof.
  unfold realTime. msimpl.
  assert (Hclear : ∀ s0, clear (with_registry g s0)
                         = Run (Normal tt) (disarmed s0) (with_registry g (final (clear s0)))).
  { intros s0. unfold clear, disarmed. msimpl. cbn [with_registry intervalId].
    by destruct (intervalId s0). }
  change (with_type TypeRealTime (with_registry g s))
    with (with_registry g (with_type TypeRealTime s)).
  rewrite (bind_Normal _ _ _ _ _ _ (Hclear _)).
  destruct (clear_fields (with_type TypeRealTime s)) as (s1 & H1 & _).
  rewrite (bind_Normal _ _ _ _ _ _ H1), H1. cbn [final]. msimpl.
  change (entries (with_registry g s1)) with (entries s1).
  rewrite forEach_intercept_registry.
  by destruct (forEach_intercept_run (entries s1) s1) as (out & s2 & -> & _).
Qed.

Lemma assign_registry g o p v s :
  assign o p v (with_registry g s)
  = Run (Normal tt) (emitted (assign o p v s)) (with_registry g (final (assign o p v s))).
Proof.
  unfold assign. msimpl. change (deref (with_registry g s) o) with (deref s o).
  destruct (deref s o) as [instance|]; [|done].
  destruct (instance !! p) as [[w|value i|w]|]; [done| |done|done].
  destruct (strict_neq v value) eqn:Hv.
  2:{ unfold set. by rewrite Hv. }
  destruct (cells s !! i) as [e|] eqn:He.
  - assert (He' : cells (with_registry g s) !! i = Some e) by done.
    by rewrite (set_closed_form o p value i v e s Hv He),
               (set_closed_form o p value i v e _ Hv He').
  - unfold set. rewrite Hv. msimpl.
    assert (He0 : cells (with_heap (alter <[p:=Accessor v i]> o) s) !! i = None) by done.
    assert (He1 : cells (with_heap (alter <[p:=Accessor v i]> o) (with_registry g s)) !! i
                  = None) by done.
    by rewrite He0, He1.
Qed.

Lemma all_alive_check s : all_alive s → all_alive (final (check s)).
Proof.
  intros _. destruct (check_filter_kept (heap s) (mode s) (entries s) (cells s) ∅) as [Hk Hc].
  rewrite check_run. intros i. unfold live_entry. cbn [final entries cells heap].
  rewrite Hk. intros [_ Hlive]%elem_of_List_filter.
  by rewrite (live_in_shape _ _ _ _ Hc).
Qed.

Lemma all_alive_realTime s : all_alive s → all_alive (final (realTime s)).
Proof.
  intros Hlive. unfold realTime. msimpl.
  destruct (clear_fields (with_type TypeRealTime s)) as (s1 & H1 & _ & _ & _ & He & Hc & Hh & _).
  rewrite (bind_Normal _ _ _ _ _ _ H1). msimpl. cbn [final].
  assert (Hlive1 : all_alive s1).
  { intros i Hi. unfold live_entry. rewrite Hh, Hc. apply Hlive. rewrite He in Hi. exact Hi. }
  generalize (entries s1) as l. clear -Hlive1. revert s1 Hlive1.
  intros s1 Hlive1 l. revert s1 Hlive1. induction l as [|i l IH]; intros s1 Hlive1; [done|].
  rewrite forEach_cons.
  pose proof (all_alive_intercept i s1 Hlive1) as H.
  destruct (intercept_run i s1) as (out & s2 & Hrun & [->|[q ->]] & _);
    rewrite Hrun in H; cbn [final] in H.
  - rewrite (bind_Normal _ _ _ _ _ _ Hrun). cbn [final]. by apply IH.
  - by rewrite (bind_Thrown _ _ _ _ _ _ Hrun).
Qed.

Lemma all_alive_assign o p v s : all_alive s → all_alive (final (assign o p v s)).
Proof.
  intros Hlive.
  assert (Hdom : ∀ s', entries s' = entries s → same_shape (cells s') (cells s) →
            (∀ r, is_Some (heap s !! r) → is_Some (heap s' !! r)) → all_alive s').
  { intros s' He Hc Hd i Hi. rewrite He in Hi. specialize (Hlive i Hi).
    unfold live_entry in *. rewrite (live_in_shape _ _ _ _ Hc). unfold live_in in *.
    destruct (cells s !! i) as [e|]; [|done].
    apply bool_decide_eq_true. apply bool_decide_eq_true in Hlive. by apply Hd. }
  unfold assign. msimpl. destruct (deref s o) as [instance|] eqn:Ho; [|done].
  unfold deref in Ho.
  assert (Hplain : ∀ d, all_alive (with_heap <[o:=<[p:=d]> instance]> s)).
  { intros d. apply Hdom; [done|done|]. intros r Hr. cbn [with_heap heap].
    rewrite lookup_insert. case_decide; [by eexists|done]. }
  destruct (instance !! p) as [[w|value i|w]|]; [apply Hplain| |apply Hplain|apply Hplain].
  destruct (set_frame o p value i v s) as (evs & s' & -> & Hh & _ & He & _ & Hc).
  cbn [final]. destruct (strict_neq v value).
  - apply Hdom; [done|done|]. intros r Hr. rewrite Hh. cbn [with_heap heap].
    rewrite lookup_alter. case_decide; [subst r|done]. rewrite Ho. by eexists.
  - apply Hdom; [done|done|]. intros r Hr. by rewrite Hh.
Qed.

Lemma registrable_registry g s o props :
  registrable (with_registry g s) o props = registrable s o props.
Proof. induction props as [|item props IH]; [done|]. cbn. by rewrite IH. Qed.

Lemma clock_registry g ms s :
  clock ms (with_registry g s)
  = Run (outcome (clock ms s)) (emitted (clock ms s))
      (with_registry g (final (clock ms s))).
Proof.
  destruct (decide (type s = TypeRealTime)) as [Ht|Ht].
  - unfold clock. msimpl. cbn [with_registry type]. by rewrite !bool_decide_eq_true_2.
  - rewrite (clock_closed_form ms s Ht), (clock_closed_form ms (with_registry g s)); done.
Qed.

Lemma v2_0_step a r s :
  all_alive s →
  outcome (V2_0.perform a (with_registry (λ _, r) s)) = outcome (perform (upgrade a) s) ∧
  emitted (V2_0.perform a (with_registry (λ _, r) s)) = emitted (perform (upgrade a) s) ∧
  final (V2_0.perform a (with_registry (λ _, r) s))
  = with_registry (λ _, r) (final (perform (upgrade a) s)) ∧
  all_alive (final (perform (upgrade a) s)).
Proof.
  intros Hlive. set (s0 := with_registry (λ _, r) s).
  assert (Hlive0 : all_alive s0) by (by apply all_alive_registry).
  destruct a as [instance arg|ms| | | | |o p v]; cbn [V2_0.perform upgrade perform].
  - assert (Hrel : outcome (V2_0.watch instance arg s0) = outcome (watch instance arg s) ∧
                   emitted (V2_0.watch instance arg s0) = emitted (watch instance arg s) ∧
                   final (V2_0.watch instance arg s0)
                   = with_registry (λ _, r) (final (watch instance arg s))).
    { destruct arg as [p k|props|]; cbn [V2_0.watch watch]; [| |done].
      - rewrite bind_read. unfold V2_0.addEntry. rewrite bind_read. cbn [instanceRef prop].
        change (has_prop s0 instance p) with (has_prop s instance p).
        destruct (has_prop s instance p) eqn:Hp; cbn [negb].
        + by rewrite (addEntry_present _ _ _ _ Hp).
        + by rewrite (addEntry_missing _ _ _ _ Hp).
      - rewrite v2_0_watch_each_closed_form, watch_each_closed_form.
        unfold registration_outcome, s0. rewrite registrable_registry.
        cbn [outcome emitted final]. by repeat split. }
    destruct Hrel as (Ho & He & Hf). repeat split; try done.
    apply (proj1 (all_alive_registry (λ _, r) (final (watch instance arg s)))).
    rewrite <- Hf. by apply v2_0_watch_alive.
  - unfold s0. rewrite (clock_registry _ ms s). repeat split; try done.
    destruct (decide (type s = TypeRealTime)) as [Ht|Ht].
    + unfold clock. msimpl. by rewrite bool_decide_eq_true_2.
    + by rewrite (clock_closed_form ms s Ht).
  - rewrite (v2_0_realTime_agrees s0 Hlive0). unfold s0. rewrite realTime_registry.
    repeat split; try done. by apply all_alive_realTime.
  - done.
  - done.
  - unfold V2_0.tick, tick. msimpl. change (intervalId s0) with (intervalId s).
    destruct (intervalId s); [|done].
    rewrite (v2_0_check_agrees s0 Hlive0), (check_run s0), (check_run s).
    repeat split; try done. pose proof (all_alive_check s Hlive) as H.
    by rewrite check_run in H.
  - rewrite (v2_0_assign_agrees o p v s0 Hlive0). unfold s0. rewrite assign_registry.
    destruct (assign_frame o p v s) as (evs & s' & Hrun & _).
    split; [by rewrite Hrun|]. split; [done|]. split; [done|].
    by apply all_alive_assign.
Qed.

Lemma v2_0_script_cons a acts s :
  V2_0.script (a :: acts) s =
  (emitted (V2_0.perform a s) ++ (V2_0.script acts (final (V2_0.perform a s))).1,
   (V2_0.script acts (final (V2_0.perform a s))).2).
Proof. cbn [V2_0.script]. by destruct (V2_0.script acts (final (V2_0.perform a s))). Qed.

Lemma v2_0_script_simulated acts r s :
  all_alive s →
  V2_0.script acts (with_registry (λ _, r) s)
  = ((script (upgrade <$> acts) s).1,
     with_registry (λ _, r) (script (upgrade <$> acts) s).2).
Proof.
  revert s. induction acts as [|a acts IH]; intros s Hlive; [done|].
  destruct (v2_0_step a r s Hlive) as (_ & He & Hf & Hlive').
  rewrite fmap_cons, v2_0_script_cons, script_cons, He, Hf, (IH _ Hlive'). done.
Qed.

(** X20.  Version 2.1.0 behaves as version 2.0.0 on everything version
    2.0.0 can do: a fresh engine driven by any sequence of registrations,
    strategy and policy calls, timer ticks and assignments publishes the
    same notifications in both versions and ends in the same state, the
    finalization registry of 2.1.0 apart. *)
Theorem v2_1_simulates_v2_0 (acts : list V2_0.action) (h : gmap oid (gmap string slot)) :
  V2_0.script acts (create h)
  = ((script (upgrade <$> acts) (create h)).1,
     with_registry (λ _, []) (script (upgrade <$> acts) (create h)).2).
Proof.
  apply (v2_0_script_simulated acts [] (create h)).
  by intros i ?%elem_of_nil.
Qed.

Lemma v2_0_check_loop_shape h m es cs updates :
  same_shape (V2_0.check_loop h m es cs updates).1 cs.
Proof.
  revert cs updates. induction es as [|i es IH]; intros cs updates; [done|].
  cbn [V2_0.check_loop]. destruct (cs !! i) as [e|] eqn:He; [|apply IH].
  eapply same_shape_trans; [apply IH|].
  destruct (strict_neq _ _); [by apply same_shape_insert|done].
Qed.

(** X21.  In version 2.0.0 a timer tick never adds, removes or reorders an
    entry and never touches an object, the policy, the strategy or the
    timer: it changes [lastValue] fields only. *)
Theorem v2_0_tick_keeps_every_entry (s : state) :
  outcome (V2_0.tick s) = Normal tt ∧
  entries (final (V2_0.tick s)) = entries s ∧
  heap (final (V2_0.tick s)) = heap s ∧
  selector (final (V2_0.tick s)) = selector s ∧
  same_shape (cells (final (V2_0.tick s))) (cells s).
Proof.
  unfold V2_0.tick. msimpl. destruct (intervalId s); [|done].
  unfold V2_0.check. msimpl.
  pose proof (v2_0_check_loop_shape (heap s) (mode s) (entries s) (cells s) ∅) as Hshape.
  destruct (V2_0.check_loop _ _ _ _ _) as [cs updates]. msimpl. cbn [fst] in Hshape.
  by destruct (bool_decide (updates ≠ ∅)).
Qed.

(** ** The engine never leaks a timer *)

Lemma armed_quiet trace timers :
  Forall (λ ev, timer_call ev = false) trace → armed trace timers = timers.
Proof.
  induction 1 as [|ev trace Hev _ IH]; [done|]. by destruct ev.
Qed.

Lemma assign_no_timer_call o p v s :
  Forall (λ ev, timer_call ev = false) (emitted (assign o p v s)).
Proof.
  unfold assign. msimpl. destruct (deref s o) as [instance|]; [|by constructor].
  destruct (instance !! p) as [[w|value i|w]|]; try by constructor.
  destruct (strict_neq v value) eqn:Hv.
  2:{ unfold set. rewrite Hv. by constructor. }
  destruct (cells s !! i) as [e|] eqn:He.
  2:{ unfold set. rewrite Hv. msimpl.
      assert (He1 : cells (with_heap (alter <[p:=Accessor v i]> o) s) !! i = None) by done.
      rewrite He1. by constructor. }
  rewrite (set_closed_form o p value i v e s Hv He). cbn [emitted].
  unfold publications. set (s1 := with_heap _ s). destruct (mode s1).
  - destruct (bool_decide (all_payload s1 ≠ ∅)), (bool_decide (full_payload s1 ≠ ∅));
      by repeat constructor.
  - destruct (strict_neq v (lastValue e)); by repeat constructor.
  - by constructor.
Qed.

Lemma held_timer_selector s s' : selector s' = selector s → held_timer s' = held_timer s.
Proof. intros H. unfold held_timer. by rewrite (selector_timer _ _ H). Qed.

(** Every call and every runtime event keeps the timer the engine holds
    the only one armed. *)
Lemma perform_timers a s :
  armed (emitted (perform a s)) (held_timer s) = held_timer (final (perform a s)).
Proof.
  destruct a as [instance arg|ms| | | |instance| |o p v|o|o]; cbn [perform]; try done.
  - destruct arg as [p k|props|]; cbn [watch]; [| |done].
    + destruct (has_prop s instance p) eqn:Hp.
      * by rewrite (addEntry_present _ _ _ _ Hp).
      * by rewrite (addEntry_missing _ _ _ _ Hp).
    + by rewrite watch_each_closed_form.
  - destruct (decide (type s = TypeRealTime)) as [Ht|Ht].
    + unfold clock. msimpl. by rewrite bool_decide_eq_true_2.
    + rewrite (clock_closed_form ms s Ht). cbn [emitted final].
      by rewrite armed_app, armed_disarmed.
  - destruct (realTime_run s) as (out & s' & -> & _ & _ & _ & Hi & _).
    cbn [emitted final armed]. rewrite armed_disarmed. unfold held_timer. by rewrite Hi.
  - unfold tick. msimpl. destruct (intervalId s) as [id|] eqn:Hid; [|done].
    rewrite check_run. cbn [emitted final]. unfold held_timer. cbn [intervalId].
    rewrite Hid. by destruct (bool_decide _).
  - rewrite armed_quiet by apply assign_no_timer_call.
    destruct (assign_frame o p v s) as (evs & s' & -> & Hsel & _).
    symmetry. by apply held_timer_selector.
  - unfold finalize. msimpl.
    destruct (forEach_cleanup_run (map snd (List.filter (λ r : oid * string, bool_decide (r.1 = o)) (registry s)))
      (with_registry (List.filter (λ r : oid * string, negb (bool_decide (r.1 = o)))) s))
      as (s' & -> & Hsel & _).
    cbn [emitted final armed]. by rewrite (held_timer_selector _ _ Hsel).
Qed.

(** X23.  The engine never leaks a timer.  If the timer it holds is the
    only one armed (none, for a fresh engine), then after any sequence of
    calls and runtime events, replaying every [setInterval] and
    [clearInterval] call it made, the timer it holds is again the only one
    armed: none after [realTime()], the one of the last [clock] otherwise.
    So the firings of the held timer are the only poll ticks there are. *)
Theorem timers_never_leak (acts : list action) (s : state) :
  armed (script acts s).1 (held_timer s) = held_timer (script acts s).2.
Proof.
  revert s. induction acts as [|a acts IH]; intros s; [done|].
  rewrite script_cons. cbn [fst snd]. by rewrite armed_app, perform_timers, IH.
Qed.
